(** * SHM simulator: a shallow embedding of [shm-simulation.js]

    The script animates a block on a spring.  Its state is a handful of
    global variables, two canvases and the browser's animation-frame
    queue; every function of the script is embedded below as a function
    on that state, in the order of the source.

    Numbers.  A JavaScript number is modelled by [jsnum]: a finite value
    is the real number it denotes, and the three exceptional values
    [Infinity], [-Infinity] and [NaN] are kept apart, with the IEEE rules
    for them.  Rounding, overflow of finite results and the sign of zero
    are not modelled (a zero divisor counts as [+0]). *)

From Stdlib Require Import Reals Lra Lia List String ZArith Bool.
Import ListNotations.
Open Scope R_scope.

(** ** JavaScript numbers *)

Inductive jsnum : Type :=
| Fin (r : R)
| PInf
| NInf
| NaN.

Inductive sign : Type := Neg | Zero | Pos.

Definition Rsign (r : R) : sign :=
  if Rlt_dec r 0 then Neg else if Rlt_dec 0 r then Pos else Zero.

Definition inf_of (s : sign) : jsnum :=
  match s with Pos => PInf | Neg => NInf | Zero => NaN end.

Definition opp_sign (s : sign) : sign :=
  match s with Pos => Neg | Neg => Pos | Zero => Zero end.

Definition jneg (a : jsnum) : jsnum :=
  match a with
  | Fin x => Fin (- x)
  | PInf => NInf
  | NInf => PInf
  | NaN => NaN
  end.

Definition jadd (a b : jsnum) : jsnum :=
  match a, b with
  | NaN, _ | _, NaN => NaN
  | Fin x, Fin y => Fin (x + y)
  | PInf, NInf | NInf, PInf => NaN
  | PInf, _ | _, PInf => PInf
  | NInf, _ | _, NInf => NInf
  end.

Definition jsub (a b : jsnum) : jsnum := jadd a (jneg b).

Definition jmul (a b : jsnum) : jsnum :=
  match a, b with
  | NaN, _ | _, NaN => NaN
  | Fin x, Fin y => Fin (x * y)
  | Fin x, PInf | PInf, Fin x => inf_of (Rsign x)
  | Fin x, NInf | NInf, Fin x => inf_of (opp_sign (Rsign x))
  | PInf, PInf | NInf, NInf => PInf
  | PInf, NInf | NInf, PInf => NInf
  end.

Definition jdiv (a b : jsnum) : jsnum :=
  match a, b with
  | NaN, _ | _, NaN => NaN
  | Fin x, Fin y => if Req_dec_T y 0 then inf_of (Rsign x) else Fin (x / y)
  | Fin _, PInf | Fin _, NInf => Fin 0
  | PInf, Fin y => if Rlt_dec y 0 then NInf else PInf
  | NInf, Fin y => if Rlt_dec y 0 then PInf else NInf
  | _, _ => NaN
  end.

(** [Math.sqrt], [Math.cos], [Math.sin]. *)
Definition jsqrt (a : jsnum) : jsnum :=
  match a with
  | Fin x => if Rlt_dec x 0 then NaN else Fin (sqrt x)
  | PInf => PInf
  | NInf | NaN => NaN
  end.

Definition jcos (a : jsnum) : jsnum :=
  match a with Fin x => Fin (cos x) | _ => NaN end.

Definition jsin (a : jsnum) : jsnum :=
  match a with Fin x => Fin (sin x) | _ => NaN end.

(** Rounding towards zero, as the quotient of [%] is. *)
Definition Rtrunc (r : R) : R :=
  if Rle_dec 0 r then IZR (Int_part r) else - IZR (Int_part (- r)).

(** The remainder operator [a % b]: the result takes the sign of [a]. *)
Definition jmod (a b : jsnum) : jsnum :=
  match a, b with
  | Fin x, Fin y =>
      if Req_dec_T y 0 then NaN else Fin (x - y * Rtrunc (x / y))
  | Fin x, PInf | Fin x, NInf => Fin x
  | _, _ => NaN
  end.

(** [a >= b] and [a > b]; every comparison with [NaN] is false. *)
Definition jge (a b : jsnum) : bool :=
  match a, b with
  | NaN, _ | _, NaN => false
  | Fin x, Fin y => if Rle_dec y x then true else false
  | PInf, _ | _, NInf => true
  | _, _ => false
  end.

Definition jgt (a b : jsnum) : bool :=
  match a, b with
  | NaN, _ | _, NaN => false
  | Fin x, Fin y => if Rlt_dec y x then true else false
  | PInf, PInf | NInf, NInf => false
  | PInf, _ | _, NInf => true
  | _, _ => false
  end.

(** Truthiness of a number: [0] and [NaN] are falsy. *)
Definition truthy (a : jsnum) : bool :=
  match a with
  | Fin x => if Req_dec_T x 0 then false else true
  | NaN => false
  | PInf | NInf => true
  end.

Definition is_finite (a : jsnum) : Prop :=
  match a with Fin _ => True | _ => False end.

Declare Scope js_scope.
Delimit Scope js_scope with js.
Bind Scope js_scope with jsnum.
Notation "a + b" := (jadd a b) : js_scope.
Notation "a - b" := (jsub a b) : js_scope.
Notation "a * b" := (jmul a b) : js_scope.
Notation "a / b" := (jdiv a b) : js_scope.
Notation "- a" := (jneg a) : js_scope.
Notation "a >= b" := (jge a b) : js_scope.
Notation "a > b" := (jgt a b) : js_scope.

(** A whole number (a length, a canvas dimension, a loop index). *)
Definition of_nat (n : nat) : jsnum := Fin (INR n).
Definition of_N (n : N) : jsnum := Fin (IZR (Z.of_N n)).

(** ** The 2D canvas

    A canvas element together with its drawing context: the pixel
    dimensions, the context's style state and current path, and the
    [surface], the primitives painted since the canvas was last wiped. *)

Inductive pathseg : Type :=
| MoveTo (x y : jsnum)
| LineTo (x y : jsnum)
| Arc (x y radius startAngle endAngle : jsnum).

Inductive prim : Type :=
| FilledRect (style : string) (x y w h : jsnum)
| StrokedRect (style : string) (lw : jsnum) (dash : list jsnum) (x y w h : jsnum)
| StrokedPath (style : string) (lw : jsnum) (dash : list jsnum) (p : list pathseg)
| FilledPath (style : string) (p : list pathseg)
| DrawnText (style fnt align : string) (s : string) (x y : jsnum)
| Erased (x y w h : jsnum).

Record canvas : Type := mkCanvas {
  width : N;
  height : N;
  fillStyle : string;
  strokeStyle : string;
  lineWidth : jsnum;
  lineDash : list jsnum;
  font : string;
  textAlign : string;
  path : list pathseg;
  surface : list prim
}.

(** A canvas as the page creates it: context defaults, nothing painted. *)
Definition fresh_canvas (w h : N) : canvas :=
  mkCanvas w h "#000000" "#000000" (Fin 1) [] "10px sans-serif" "start" [] [].

Definition with_fillStyle (s : string) (c : canvas) : canvas :=
  mkCanvas (width c) (height c) s (strokeStyle c) (lineWidth c) (lineDash c)
           (font c) (textAlign c) (path c) (surface c).
Definition with_strokeStyle (s : string) (c : canvas) : canvas :=
  mkCanvas (width c) (height c) (fillStyle c) s (lineWidth c) (lineDash c)
           (font c) (textAlign c) (path c) (surface c).
Definition with_lineWidth (n : jsnum) (c : canvas) : canvas :=
  mkCanvas (width c) (height c) (fillStyle c) (strokeStyle c) n (lineDash c)
           (font c) (textAlign c) (path c) (surface c).
Definition with_lineDash (d : list jsnum) (c : canvas) : canvas :=
  mkCanvas (width c) (height c) (fillStyle c) (strokeStyle c) (lineWidth c) d
           (font c) (textAlign c) (path c) (surface c).
Definition with_font (s : string) (c : canvas) : canvas :=
  mkCanvas (width c) (height c) (fillStyle c) (strokeStyle c) (lineWidth c)
           (lineDash c) s (textAlign c) (path c) (surface c).
Definition with_textAlign (s : string) (c : canvas) : canvas :=
  mkCanvas (width c) (height c) (fillStyle c) (strokeStyle c) (lineWidth c)
           (lineDash c) (font c) s (path c) (surface c).
Definition with_path (p : list pathseg) (c : canvas) : canvas :=
  mkCanvas (width c) (height c) (fillStyle c) (strokeStyle c) (lineWidth c)
           (lineDash c) (font c) (textAlign c) p (surface c).
Definition with_surface (s : list prim) (c : canvas) : canvas :=
  mkCanvas (width c) (height c) (fillStyle c) (strokeStyle c) (lineWidth c)
           (lineDash c) (font c) (textAlign c) (path c) s.

Definition paint (p : prim) (c : canvas) : canvas :=
  with_surface (surface c ++ [p]) c.

(** Does the rectangle [(x, y, w, h)] cover the whole canvas? *)
Definition covers (c : canvas) (x y w h : jsnum) : bool :=
  (Fin 0 >= x)%js && (Fin 0 >= y)%js
  && (x + w >= of_N (width c))%js && (y + h >= of_N (height c))%js.

(** The calls the script makes on a drawing context. *)
Inductive call : Type :=
| clearRect (x y w h : jsnum)
| set_fillStyle (s : string)
| set_strokeStyle (s : string)
| set_lineWidth (n : jsnum)
| setLineDash (d : list jsnum)
| set_font (s : string)
| set_textAlign (s : string)
| fillRect (x y w h : jsnum)
| strokeRect (x y w h : jsnum)
| beginPath
| moveTo (x y : jsnum)
| lineTo (x y : jsnum)
| arc (x y radius startAngle endAngle : jsnum)
| stroke
| fill
| fillText (s : string) (x y : jsnum).

Definition perform (k : call) (c : canvas) : canvas :=
  match k with
  | clearRect x y w h =>
      if covers c x y w h then with_surface [] c
      else paint (Erased x y w h) c
  | set_fillStyle s => with_fillStyle s c
  | set_strokeStyle s => with_strokeStyle s c
  | set_lineWidth n => with_lineWidth n c
  | setLineDash d => with_lineDash d c
  | set_font s => with_font s c
  | set_textAlign s => with_textAlign s c
  | fillRect x y w h => paint (FilledRect (fillStyle c) x y w h) c
  | strokeRect x y w h =>
      paint (StrokedRect (strokeStyle c) (lineWidth c) (lineDash c) x y w h) c
  | beginPath => with_path [] c
  | moveTo x y => with_path (path c ++ [MoveTo x y]) c
  | lineTo x y => with_path (path c ++ [LineTo x y]) c
  | arc x y r a0 a1 => with_path (path c ++ [Arc x y r a0 a1]) c
  | stroke =>
      paint (StrokedPath (strokeStyle c) (lineWidth c) (lineDash c) (path c)) c
  | fill => paint (FilledPath (fillStyle c) (path c)) c
  | fillText s x y => paint (DrawnText (fillStyle c) (font c) (textAlign c) s x y) c
  end.

Definition run (ks : list call) (c : canvas) : canvas :=
  fold_left (fun c k => perform k c) ks c.

(** ** The page, the script's variables and the frame queue *)

(** The text [x.toFixed(digits)] written into a label. *)
Inductive text : Type :=
| toFixed (x : jsnum) (digits : nat).

(** The elements the script looks up.  A range control is read through
    [parseFloat(control.value)], so it is modelled by that number. *)
Record document : Type := mkDocument {
  simCanvas : canvas;
  graphCanvas : canvas;
  massInput : jsnum;
  massValueSpan : option text;
  springConstantInput : jsnum;
  springConstantValueSpan : option text;
  initialAmplitudeInput : jsnum;
  initialAmplitudeValueSpan : option text
}.

Record sample : Type := mkSample {
  s_time : jsnum;
  s_position : jsnum
}.

(** The script's [let] variables, the [graphHistory] array and the
    [lastTime] property kept on [animationLoop]. *)
Record globals : Type := mkGlobals {
  mass : jsnum;
  springConstant : jsnum;
  initialAmplitude : jsnum;
  angularFrequency : jsnum;
  period : jsnum;
  time : jsnum;
  position : jsnum;
  velocity : jsnum;
  animationFrameId : option nat;
  simulationActive : bool;
  graphHistory : list sample;
  lastTime : option jsnum
}.

(** The browser's animation-frame callbacks: the handles waiting for the
    next frame and the next handle to hand out (handles start at 1). *)
Record frames : Type := mkFrames {
  pending : list nat;
  next_handle : nat
}.

Record world : Type := mkWorld {
  g : globals;
  doc : document;
  raf : frames
}.

Definition requestAnimationFrame (f : frames) : nat * frames :=
  (next_handle f, mkFrames (pending f ++ [next_handle f]) (S (next_handle f))).

Definition cancelAnimationFrame (id : nat) (f : frames) : frames :=
  mkFrames (filter (fun h => negb (Nat.eqb h id)) (pending f)) (next_handle f).

(** Truthiness of [animationFrameId]: [undefined] and [0] are falsy. *)
Definition truthy_handle (o : option nat) : bool :=
  match o with
  | Some (S _) => true
  | _ => false
  end.

(** *** Drawing and graph properties *)

Definition simScale : jsnum := Fin 100.
Definition blockWidth : jsnum := Fin 60.
Definition blockHeight : jsnum := Fin 40.
Definition wallX : jsnum := Fin 50.
Definition groundY (d : document) : jsnum :=
  (of_N (height (simCanvas d)) - Fin 50)%js.
Definition equilibriumX : jsnum := (wallX + Fin 200)%js.

Definition graphScaleY : jsnum := Fin 80.
Definition graphScaleX : jsnum := Fin 50.
Definition graphOriginX : jsnum := Fin 50.
Definition graphOriginY (d : document) : jsnum :=
  (of_N (height (graphCanvas d)) / Fin 2)%js.
Definition maxGraphTime : jsnum := Fin 20.

Definition Math_PI : jsnum := Fin PI.

(** *** Field updates *)

Definition with_g (x : globals) (w : world) : world := mkWorld x (doc w) (raf w).
Definition with_doc (d : document) (w : world) : world := mkWorld (g w) d (raf w).
Definition with_raf (f : frames) (w : world) : world := mkWorld (g w) (doc w) f.

Definition with_simCanvas (c : canvas) (d : document) : document :=
  mkDocument c (graphCanvas d) (massInput d) (massValueSpan d)
             (springConstantInput d) (springConstantValueSpan d)
             (initialAmplitudeInput d) (initialAmplitudeValueSpan d).
Definition with_graphCanvas (c : canvas) (d : document) : document :=
  mkDocument (simCanvas d) c (massInput d) (massValueSpan d)
             (springConstantInput d) (springConstantValueSpan d)
             (initialAmplitudeInput d) (initialAmplitudeValueSpan d).
Definition with_spans (m k a : option text) (d : document) : document :=
  mkDocument (simCanvas d) (graphCanvas d) (massInput d) m
             (springConstantInput d) k (initialAmplitudeInput d) a.

(** *** Simulation logic *)

(** Lines 59-70 of [updateParameters] on the variables. *)
Definition read_parameters (d : document) (x : globals) : globals :=
  let mass' := massInput d in
  let springConstant' := springConstantInput d in
  let initialAmplitude' := initialAmplitudeInput d in
  let angularFrequency' := jsqrt (springConstant' / mass')%js in
  let period' := (Fin 2 * Math_PI / angularFrequency')%js in
  mkGlobals mass' springConstant' initialAmplitude' angularFrequency' period'
            (time x) (position x) (velocity x) (animationFrameId x)
            (simulationActive x) (graphHistory x) (lastTime x).

(** [updatePhysics(deltaTime)]; [d] supplies [graphCanvas.width]. *)
Definition updatePhysics (d : document) (deltaTime : jsnum) (x : globals)
  : globals :=
  let time' := (time x + deltaTime)%js in
  let position' := (initialAmplitude x * jcos (angularFrequency x * time'))%js in
  let velocity' :=
    (- initialAmplitude x * angularFrequency x
       * jsin (angularFrequency x * time'))%js in
  let pushed := graphHistory x ++ [mkSample time' position'] in
  let history' :=
    if (of_nat (List.length pushed) * (graphScaleX * Fin 0.03)
        > of_N (width (graphCanvas d)) - graphOriginX)%js
    then tl pushed
    else pushed in
  mkGlobals (mass x) (springConstant x) (initialAmplitude x)
            (angularFrequency x) (period x) time' position' velocity'
            (animationFrameId x) (simulationActive x) history' (lastTime x).

(** *** Drawing functions *)

(** The calls [drawSimulation] makes on [simCtx], in order. *)
Definition drawSimulation_calls (d : document) (x : globals) : list call :=
  let W := of_N (width (simCanvas d)) in
  let H := of_N (height (simCanvas d)) in
  let gY := groundY d in
  let currentBlockX := (equilibriumX + position x * simScale)%js in
  let springStartX := wallX in
  let springEndX := (currentBlockX - blockWidth / Fin 2)%js in
  let numCoils := 15%nat in
  let coilLength := ((springEndX - springStartX) / of_nat numCoils)%js in
  let coilHeight := Fin 15 in
  [ clearRect (Fin 0) (Fin 0) W H;
    (* ground *)
    set_fillStyle "#d3d3d3";
    fillRect (Fin 0) gY W (H - gY)%js;
    set_strokeStyle "#888";
    set_lineWidth (Fin 2);
    beginPath;
    moveTo (Fin 0) gY;
    lineTo W gY;
    stroke;
    (* fixed wall *)
    set_fillStyle "#666";
    fillRect (wallX - Fin 10)%js (gY - Fin 100)%js (Fin 20) (Fin 100);
    fillRect (wallX - Fin 10)%js (gY - Fin 100)%js (Fin 20) (Fin 100);
    set_strokeStyle "#333";
    set_lineWidth (Fin 2);
    strokeRect (wallX - Fin 10)%js (gY - Fin 100)%js (Fin 20) (Fin 100);
    (* spring *)
    set_strokeStyle "#3498db";
    set_lineWidth (Fin 3);
    beginPath;
    moveTo springStartX (gY - blockHeight / Fin 2)%js ]
  ++ map (fun i : nat =>
            let xi := (springStartX + of_nat i * coilLength)%js in
            let yOffset := if Nat.even i then coilHeight else (- coilHeight)%js in
            lineTo xi (gY - blockHeight / Fin 2 + yOffset)%js)
         (seq 0 (S numCoils))
  ++ [ stroke;
       (* block *)
       set_fillStyle "#e74c3c";
       fillRect (currentBlockX - blockWidth / Fin 2)%js (gY - blockHeight)%js
                blockWidth blockHeight;
       set_strokeStyle "#c0392b";
       set_lineWidth (Fin 2);
       strokeRect (currentBlockX - blockWidth / Fin 2)%js (gY - blockHeight)%js
                  blockWidth blockHeight;
       (* markings *)
       set_font "14px Arial";
       set_fillStyle "black";
       set_textAlign "center";
       set_strokeStyle "rgba(0, 0, 0, 0.5)";
       setLineDash [Fin 5; Fin 5];
       beginPath;
       moveTo equilibriumX (gY - blockHeight - Fin 20)%js;
       lineTo equilibriumX (gY + Fin 20)%js;
       stroke;
       fillText "Equilibrium (x=0)" equilibriumX (gY + Fin 35)%js;
       set_strokeStyle "rgba(0, 128, 0, 0.7)";
       beginPath;
       moveTo (equilibriumX + initialAmplitude x * simScale)%js
              (gY - blockHeight - Fin 20)%js;
       lineTo (equilibriumX + initialAmplitude x * simScale)%js
              (gY + Fin 20)%js;
       stroke;
       beginPath;
       moveTo (equilibriumX - initialAmplitude x * simScale)%js
              (gY - blockHeight - Fin 20)%js;
       lineTo (equilibriumX - initialAmplitude x * simScale)%js
              (gY + Fin 20)%js;
       stroke;
       setLineDash [] ].

Definition drawSimulation (w : world) : world :=
  with_doc
    (with_simCanvas
       (run (drawSimulation_calls (doc w) (g w)) (simCanvas (doc w))) (doc w))
    w.

(** The scroll offset that puts the newest sample on the right edge. *)
Definition currentGraphXOffset (d : document) (x : globals) : jsnum :=
  match rev (graphHistory x) with
  | [] => Fin 0
  | newest :: _ =>
      (s_time newest * graphScaleX
       - (of_N (width (graphCanvas d)) - graphOriginX))%js
  end.

(** The body of [graphHistory.forEach]: one path segment per sample. *)
Fixpoint plot_history (d : document) (off : jsnum) (pts : list sample)
         (index : nat) : list call :=
  match pts with
  | [] => []
  | point :: rest =>
      let px := (graphOriginX + s_time point * graphScaleX - off)%js in
      let py := (graphOriginY d - s_position point * graphScaleY)%js in
      (if Nat.eqb index 0 then moveTo px py else lineTo px py)
        :: plot_history d off rest (S index)
  end.

Definition periodStartX (d : document) (x : globals) : jsnum :=
  (graphOriginX + (time x - jmod (time x) (period x)) * graphScaleX
   - currentGraphXOffset d x)%js.

(** The calls made inside [if (time >= period)]. *)
Definition period_mark_calls (d : document) (x : globals) : list call :=
  let oY := graphOriginY d in
  let A := initialAmplitude x in
  let pX := periodStartX d x in
  [ set_strokeStyle "purple";
    setLineDash [Fin 2; Fin 4];
    beginPath;
    moveTo pX (oY - A * graphScaleY - Fin 10)%js;
    lineTo (pX + period x * graphScaleX)%js (oY - A * graphScaleY - Fin 10)%js;
    stroke;
    beginPath;
    moveTo pX (oY - A * graphScaleY - Fin 10)%js;
    lineTo (pX + Fin 5)%js (oY - A * graphScaleY - Fin 15)%js;
    moveTo pX (oY - A * graphScaleY - Fin 10)%js;
    lineTo (pX + Fin 5)%js (oY - A * graphScaleY - Fin 5)%js;
    stroke;
    beginPath;
    moveTo (pX + period x * graphScaleX)%js (oY - A * graphScaleY - Fin 10)%js;
    lineTo (pX + period x * graphScaleX - Fin 5)%js
           (oY - A * graphScaleY - Fin 15)%js;
    moveTo (pX + period x * graphScaleX)%js (oY - A * graphScaleY - Fin 10)%js;
    lineTo (pX + period x * graphScaleX - Fin 5)%js
           (oY - A * graphScaleY - Fin 5)%js;
    stroke;
    set_textAlign "center";
    setLineDash [] ].

(** The calls [drawGraph] makes on [graphCtx], in order. *)
Definition drawGraph_calls (d : document) (x : globals) : list call :=
  let W := of_N (width (graphCanvas d)) in
  let H := of_N (height (graphCanvas d)) in
  let oY := graphOriginY d in
  let A := initialAmplitude x in
  let off := currentGraphXOffset d x in
  let currentX := (graphOriginX + time x * graphScaleX - off)%js in
  let currentY := (oY - position x * graphScaleY)%js in
  [ clearRect (Fin 0) (Fin 0) W H;
    (* axes *)
    set_strokeStyle "#666";
    set_lineWidth (Fin 1);
    beginPath;
    moveTo graphOriginX (Fin 0);
    lineTo graphOriginX H;
    moveTo (Fin 0) oY;
    lineTo W oY;
    stroke;
    (* axis labels *)
    set_font "12px Arial";
    set_fillStyle "black";
    set_textAlign "center";
    fillText "Time (s)" (W / Fin 2)%js (H - Fin 10)%js;
    set_textAlign "right";
    fillText "Displacement (m)" (graphOriginX - Fin 5)%js (Fin 10);
    (* amplitude lines *)
    set_strokeStyle "rgba(0, 128, 0, 0.5)";
    setLineDash [Fin 3; Fin 3];
    beginPath;
    moveTo graphOriginX (oY - A * graphScaleY)%js;
    lineTo W (oY - A * graphScaleY)%js;
    stroke;
    beginPath;
    moveTo graphOriginX (oY + A * graphScaleY)%js;
    lineTo W (oY + A * graphScaleY)%js;
    stroke;
    setLineDash [];
    (* displacement-time curve *)
    set_strokeStyle "#e74c3c";
    set_lineWidth (Fin 2);
    beginPath ]
  ++ plot_history d off (graphHistory x) 0
  ++ [ stroke;
       (* current time marker *)
       set_fillStyle "blue";
       beginPath;
       arc currentX currentY (Fin 4) (Fin 0) (Math_PI * Fin 2)%js;
       fill ]
  ++ (if (time x >= period x)%js then period_mark_calls d x else []).

Definition drawGraph (w : world) : world :=
  with_doc
    (with_graphCanvas
       (run (drawGraph_calls (doc w) (g w)) (graphCanvas (doc w))) (doc w))
    w.

(** *** Control functions and the animation loop *)

Definition with_lastTime (t : option jsnum) (x : globals) : globals :=
  mkGlobals (mass x) (springConstant x) (initialAmplitude x)
            (angularFrequency x) (period x) (time x) (position x) (velocity x)
            (animationFrameId x) (simulationActive x) (graphHistory x) t.
Definition with_animationFrameId (id : option nat) (x : globals) : globals :=
  mkGlobals (mass x) (springConstant x) (initialAmplitude x)
            (angularFrequency x) (period x) (time x) (position x) (velocity x)
            id (simulationActive x) (graphHistory x) (lastTime x).
Definition with_simulationActive (b : bool) (x : globals) : globals :=
  mkGlobals (mass x) (springConstant x) (initialAmplitude x)
            (angularFrequency x) (period x) (time x) (position x) (velocity x)
            (animationFrameId x) b (graphHistory x) (lastTime x).

(** Lines 296-300 of [resetSimulation] on the variables. *)
Definition rest_state (x : globals) : globals :=
  mkGlobals (mass x) (springConstant x) (initialAmplitude x)
            (angularFrequency x) (period x)
            (Fin 0) (initialAmplitude x) (Fin 0)
            (animationFrameId x) false [] (lastTime x).

Definition resetSimulation (w : world) : world :=
  let f :=
    match animationFrameId (g w) with
    | Some id =>
        if truthy_handle (Some id) then cancelAnimationFrame id (raf w)
        else raf w
    | None => raf w
    end in
  drawGraph (drawSimulation (mkWorld (rest_state (g w)) (doc w) f)).

Definition updateParameters (w : world) : world :=
  let x := read_parameters (doc w) (g w) in
  let d :=
    with_spans (Some (toFixed (mass x) 1))
               (Some (toFixed (springConstant x) 0))
               (Some (toFixed (initialAmplitude x) 1)) (doc w) in
  resetSimulation (mkWorld x d (raf w)).

(** [animationLoop.lastTime || currentTime]. *)
Definition lastTime_or (x : globals) (currentTime : jsnum) : jsnum :=
  match lastTime x with
  | Some l => if truthy l then l else currentTime
  | None => currentTime
  end.

Definition deltaTime_of (x : globals) (currentTime : jsnum) : jsnum :=
  ((currentTime - lastTime_or x currentTime) / Fin 1000)%js.

Definition animationLoop (currentTime : jsnum) (w : world) : world :=
  let deltaTime := deltaTime_of (g w) currentTime in
  let w1 := with_g (with_lastTime (Some currentTime) (g w)) w in
  if simulationActive (g w1) then
    let w2 := with_g (updatePhysics (doc w1) deltaTime (g w1)) w1 in
    let w3 := drawGraph (drawSimulation w2) in
    let (id, f) := requestAnimationFrame (raf w3) in
    mkWorld (with_animationFrameId (Some id) (g w3)) (doc w3) f
  else w1.

(** [startSimulation]; [now] is what [performance.now()] returns. *)
Definition startSimulation (now : jsnum) (w : world) : world :=
  if simulationActive (g w) then w
  else
    let x := with_lastTime (Some now) (with_simulationActive true (g w)) in
    let (id, f) := requestAnimationFrame (raf w) in
    mkWorld (with_animationFrameId (Some id) x) (doc w) f.

(** *** The page at work *)

(** The browser renders a frame at time stamp [ts]: the waiting
    callbacks, all of them [animationLoop], are taken off the queue and
    run. *)
Definition run_frame (ts : jsnum) (w : world) : world :=
  fold_left (fun w' (_ : nat) => animationLoop ts w')
            (pending (raf w))
            (with_raf (mkFrames [] (next_handle (raf w))) w).

Inductive control : Type := MassControl | SpringControl | AmplitudeControl.

Definition set_control (c : control) (v : jsnum) (d : document) : document :=
  match c with
  | MassControl =>
      mkDocument (simCanvas d) (graphCanvas d) v (massValueSpan d)
                 (springConstantInput d) (springConstantValueSpan d)
                 (initialAmplitudeInput d) (initialAmplitudeValueSpan d)
  | SpringControl =>
      mkDocument (simCanvas d) (graphCanvas d) (massInput d) (massValueSpan d)
                 v (springConstantValueSpan d)
                 (initialAmplitudeInput d) (initialAmplitudeValueSpan d)
  | AmplitudeControl =>
      mkDocument (simCanvas d) (graphCanvas d) (massInput d) (massValueSpan d)
                 (springConstantInput d) (springConstantValueSpan d)
                 v (initialAmplitudeValueSpan d)
  end.

(** What can happen to the page: a control is moved (its [input] event
    runs [updateParameters]), a button is clicked, a frame is rendered. *)
Inductive event : Type :=
| Input (c : control) (v : jsnum)
| ClickStart (now : jsnum)
| ClickReset
| Frame (ts : jsnum).

Definition handle (e : event) (w : world) : world :=
  match e with
  | Input c v => updateParameters (with_doc (set_control c v (doc w)) w)
  | ClickStart now => startSimulation now w
  | ClickReset => resetSimulation w
  | Frame ts => run_frame ts w
  end.

(** Loading the script: the top-level declarations (lines 19-47), then
    the call of [updateParameters] on the last line. *)
Definition load (d : document) : world :=
  let mass0 := massInput d in
  let springConstant0 := springConstantInput d in
  let initialAmplitude0 := initialAmplitudeInput d in
  let angularFrequency0 := jsqrt (springConstant0 / mass0)%js in
  let period0 := (Fin 2 * Math_PI / angularFrequency0)%js in
  updateParameters
    (mkWorld
       (mkGlobals mass0 springConstant0 initialAmplitude0 angularFrequency0
                  period0 (Fin 0) initialAmplitude0 (Fin 0) None false [] None)
       d (mkFrames [] 1)).

(** A page as the browser hands it to the script: both canvases untouched. *)
Definition pristine (d : document) : Prop :=
  simCanvas d = fresh_canvas (width (simCanvas d)) (height (simCanvas d)) /\
  graphCanvas d = fresh_canvas (width (graphCanvas d)) (height (graphCanvas d)).

(** The states the page can be in. *)
Inductive reachable : world -> Prop :=
| reach_load : forall d, pristine d -> reachable (load d)
| reach_step : forall w e, reachable w -> reachable (handle e w).

Definition events (es : list event) (w : world) : world :=
  fold_left (fun w' e => handle e w') es w.

(** *** Vocabulary of the properties *)

(** The physics step run once per frame delta, oldest first. *)
Definition physics_run (d : document) (dts : list jsnum) (x : globals)
  : globals :=
  fold_left (fun x' dt => updatePhysics d dt x') dts x.


(** The derived fields agree with the parameters. *)
Definition derived_consistent (x : globals) : Prop :=
  angularFrequency x = jsqrt (springConstant x / mass x)%js /\
  period x = (Fin 2 * Math_PI / angularFrequency x)%js.

Definition same_parameters (x y : globals) : Prop :=
  mass x = mass y /\ springConstant x = springConstant y /\
  initialAmplitude x = initialAmplitude y.


(** The frame queue and the run flag agree: while the simulation is
    active exactly one callback waits, the one [animationFrameId] names;
    while it is not, none does. *)
Definition queue_inv (w : world) : Prop :=
  (1 <= next_handle (raf w))%nat /\
  if simulationActive (g w)
  then exists h : nat,
         animationFrameId (g w) = Some (S h) /\ pending (raf w) = [S h]
  else pending (raf w) = [].

(** A canvas of the given size and dash pattern with everything else
    empty: the only parts of a canvas the scene drawing can depend on. *)
Definition blank_canvas (W H : N) (dash : list jsnum) : canvas :=
  mkCanvas W H "" "" (Fin 0) dash "" "" [] [].

(** The colour a primitive was painted with. *)
Definition prim_style (p : prim) : string :=
  match p with
  | FilledRect s _ _ _ _ => s
  | StrokedRect s _ _ _ _ _ _ => s
  | StrokedPath s _ _ _ => s
  | FilledPath s _ => s
  | DrawnText s _ _ _ _ _ => s
  | Erased _ _ _ _ => ""
  end.

(** The path segments [graphHistory.forEach] lays down. *)
Fixpoint plot_path (d : document) (off : jsnum) (pts : list sample)
         (index : nat) : list pathseg :=
  match pts with
  | [] => []
  | point :: rest =>
      let px := (graphOriginX + s_time point * graphScaleX - off)%js in
      let py := (graphOriginY d - s_position point * graphScaleY)%js in
      (if Nat.eqb index 0 then MoveTo px py else LineTo px py)
        :: plot_path d off rest (S index)
  end.

(** *** Concrete pages and states used as test points *)

(** A page with a 600x300 scene canvas, an 800x300 graph canvas and the
    controls at mass 1 kg, spring constant 10 N/m, amplitude 1 m. *)
Definition example_document : document :=
  mkDocument (fresh_canvas 600 300) (fresh_canvas 800 300)
             (Fin 1) None (Fin 10) None (Fin 1) None.

(** The script's variables at rest for those parameters. *)
Definition example_globals : globals :=
  mkGlobals (Fin 1) (Fin 10) (Fin 1)
            (jsqrt (Fin 10 / Fin 1)%js)
            (Fin 2 * Math_PI / jsqrt (Fin 10 / Fin 1))%js
            (Fin 0) (Fin 1) (Fin 0) None false [] None.

(** The page just after the script has loaded, and after a click on
    the start button at wall-clock time 1000 ms. *)
Definition example_world : world := load example_document.

Definition example_running : world :=
  handle (ClickStart (Fin 1000)) example_world.

(** An active simulation whose [lastTime] was never set. *)
Definition example_unstarted : world :=
  mkWorld (with_simulationActive true example_globals) example_document
          (mkFrames [] 1).

(** The example page with the mass control at 0. *)
Definition zero_mass_document : document :=
  mkDocument (fresh_canvas 600 300) (fresh_canvas 800 300)
             (Fin 0) None (Fin 10) None (Fin 1) None.

(** The start button is clicked at 1000 ms, a first frame is rendered at
    1016 ms and the next one 20 s later (the tab was in the background). *)
Definition stalled_run : world :=
  events [ClickStart (Fin 1000); Frame (Fin 1016); Frame (Fin 21016)]
         example_world.

(** An active simulation 9 s into the motion, with the graph canvas as
    the page created it. *)
Definition late_world : world :=
  mkWorld
    (mkGlobals (Fin 1) (Fin 10) (Fin 1)
               (jsqrt (Fin 10 / Fin 1)%js)
               (Fin 2 * Math_PI / jsqrt (Fin 10 / Fin 1))%js
               (Fin 9) (Fin 1) (Fin 0) (Some 1%nat) true [] (Some (Fin 10000)))
    example_document (mkFrames [1%nat] 2).

(** *** Further vocabulary *)

(** The frame deltas, in seconds, of a run of frames with the given time
    stamps, the first measured from [prev]. *)
Fixpoint frame_deltas (prev : jsnum) (stamps : list jsnum) : list jsnum :=
  match stamps with
  | [] => []
  | ts :: rest => ((ts - prev) / Fin 1000)%js :: frame_deltas ts rest
  end.

(** The pixel sizes of the scene canvas and of the graph canvas. *)
Definition canvas_sizes (d : document) : N * N * N * N :=
  (width (simCanvas d), height (simCanvas d),
   width (graphCanvas d), height (graphCanvas d)).

(** What the three controls and their labels hold. *)
Definition controls_of (d : document)
  : jsnum * jsnum * jsnum * (option text * option text * option text) :=
  (massInput d, springConstantInput d, initialAmplitudeInput d,
   (massValueSpan d, springConstantValueSpan d, initialAmplitudeValueSpan d)).

(** A frame delta that moves time forward (or not at all). *)
Definition forward (dt : jsnum) : Prop :=
  match dt with
  | Fin r => 0 <= r
  | _ => False
  end.

(** Sample [a] was taken no later than sample [b]. *)
Definition no_later (a b : sample) : Prop :=
  (s_time b >= s_time a)%js = true.

(** Every sample of the list is no later than all those after it. *)
Fixpoint ordered (h : list sample) : Prop :=
  match h with
  | [] => True
  | a :: rest => Forall (no_later a) rest /\ ordered rest
  end.

(** The history is in time order and holds nothing from the future. *)
Definition in_time_order (x : globals) : Prop :=
  ordered (graphHistory x) /\
  Forall (fun s : sample => (time x >= s_time s)%js = true) (graphHistory x).

(** An active simulation 9 s into the motion with two samples kept. *)
Definition traced_world : world :=
  mkWorld
    (mkGlobals (Fin 1) (Fin 10) (Fin 1)
               (jsqrt (Fin 10 / Fin 1)%js)
               (Fin 2 * Math_PI / jsqrt (Fin 10 / Fin 1))%js
               (Fin 9) (Fin 0.5) (Fin 0) (Some 1%nat) true
               [mkSample (Fin 8) (Fin 1); mkSample (Fin 9) (Fin 0.5)]
               (Some (Fin 10000)))
    example_document (mkFrames [1%nat] 2).

(** The script's variables at rest with the mass control at 0: finite
    parameters, and the derived fields the script computes from them. *)
Definition zero_mass_globals : globals :=
  mkGlobals (Fin 0) (Fin 10) (Fin 1)
            (jsqrt (Fin 10 / Fin 0)%js)
            (Fin 2 * Math_PI / jsqrt (Fin 10 / Fin 0))%js
            (Fin 0) (Fin 1) (Fin 0) None false [] None.

(** What [drawGraph] leaves on the graph canvas whatever the time: the
    axes (stroked with the dash pattern [dash] the context had at entry),
    the two labels, the two amplitude lines, the curve and the marker. *)
Definition graph_base_surface (d : document) (x : globals)
           (dash : list jsnum) : list prim :=
  let W := of_N (width (graphCanvas d)) in
  let H := of_N (height (graphCanvas d)) in
  let oY := graphOriginY d in
  let A := initialAmplitude x in
  let off := currentGraphXOffset d x in
  [ StrokedPath "#666" (Fin 1) dash
      [MoveTo graphOriginX (Fin 0); LineTo graphOriginX H;
       MoveTo (Fin 0) oY; LineTo W oY];
    DrawnText "black" "12px Arial" "center" "Time (s)"
              (W / Fin 2)%js (H - Fin 10)%js;
    DrawnText "black" "12px Arial" "right" "Displacement (m)"
              (graphOriginX - Fin 5)%js (Fin 10);
    StrokedPath "rgba(0, 128, 0, 0.5)" (Fin 1) [Fin 3; Fin 3]
      [MoveTo graphOriginX (oY - A * graphScaleY)%js;
       LineTo W (oY - A * graphScaleY)%js];
    StrokedPath "rgba(0, 128, 0, 0.5)" (Fin 1) [Fin 3; Fin 3]
      [MoveTo graphOriginX (oY + A * graphScaleY)%js;
       LineTo W (oY + A * graphScaleY)%js];
    StrokedPath "#e74c3c" (Fin 2) [] (plot_path d off (graphHistory x) 0);
    FilledPath "blue"
      [Arc (graphOriginX + time x * graphScaleX - off)%js
           (oY - position x * graphScaleY)%js
           (Fin 4) (Fin 0) (Math_PI * Fin 2)%js] ].

(** The period annotation: a dashed purple line one period wide and an
    arrow head at each end. *)
Definition period_mark_surface (d : document) (x : globals) : list prim :=
  let top := (graphOriginY d - initialAmplitude x * graphScaleY)%js in
  let pX := periodStartX d x in
  let pEnd := (periodStartX d x + period x * graphScaleX)%js in
  [ StrokedPath "purple" (Fin 2) [Fin 2; Fin 4]
      [MoveTo pX (top - Fin 10)%js; LineTo pEnd (top - Fin 10)%js];
    StrokedPath "purple" (Fin 2) [Fin 2; Fin 4]
      [MoveTo pX (top - Fin 10)%js;
       LineTo (pX + Fin 5)%js (top - Fin 15)%js;
       MoveTo pX (top - Fin 10)%js;
       LineTo (pX + Fin 5)%js (top - Fin 5)%js];
    StrokedPath "purple" (Fin 2) [Fin 2; Fin 4]
      [MoveTo pEnd (top - Fin 10)%js;
       LineTo (pEnd - Fin 5)%js (top - Fin 15)%js;
       MoveTo pEnd (top - Fin 10)%js;
       LineTo (pEnd - Fin 5)%js (top - Fin 5)%js] ].

(** ** Facts about numbers *)

Lemma jdiv_fin (x y : R) : y <> 0 -> (Fin x / Fin y)%js = Fin (x / y).
Proof.
  intros Hy. unfold jdiv. destruct (Req_dec_T y 0); [contradiction | reflexivity].
Qed.

Lemma jsqrt_fin (x : R) : 0 <= x -> jsqrt (Fin x) = Fin (sqrt x).
Proof.
  intros Hx. unfold jsqrt. destruct (Rlt_dec x 0); [lra | reflexivity].
Qed.

Lemma ratio_pos (k m : R) : 0 < m -> 0 < k -> 0 < k / m.
Proof. intros Hm Hk. apply Rdiv_lt_0_compat; assumption. Qed.

Lemma omega_fin (k m : R) :
  0 < m -> 0 < k -> jsqrt (Fin k / Fin m)%js = Fin (sqrt (k / m)).
Proof.
  intros Hm Hk. rewrite jdiv_fin by lra.
  apply jsqrt_fin. left. apply ratio_pos; assumption.
Qed.

Lemma jge_fin (x y : R) : (Fin x >= Fin y)%js = true <-> y <= x.
Proof.
  unfold jge. destruct (Rle_dec y x); split; intros; try assumption;
    try reflexivity; try discriminate; contradiction.
Qed.

Lemma jgt_fin (x y : R) : (Fin x > Fin y)%js = true <-> y < x.
Proof.
  unfold jgt. destruct (Rlt_dec y x); split; intros; try assumption;
    try reflexivity; try discriminate; contradiction.
Qed.

Lemma jgt_fin_false (x y : R) : (Fin x > Fin y)%js = false <-> x <= y.
Proof.
  unfold jgt. destruct (Rlt_dec y x); split; intros; try reflexivity;
    try discriminate; lra.
Qed.

(** ** The physics step *)

Section Physics.

Variable d : document.

Lemma updatePhysics_parameters (dt : jsnum) (x : globals) :
  same_parameters x (updatePhysics d dt x) /\
  angularFrequency (updatePhysics d dt x) = angularFrequency x /\
  period (updatePhysics d dt x) = period x.
Proof. unfold same_parameters. simpl. repeat split. Qed.

Lemma physics_run_parameters (dts : list jsnum) (x : globals) :
  same_parameters x (physics_run d dts x) /\
  angularFrequency (physics_run d dts x) = angularFrequency x /\
  period (physics_run d dts x) = period x.
Proof.
  revert x. induction dts as [| dt dts IH]; intros x.
  - unfold same_parameters. simpl. repeat split.
  - change (physics_run d (dt :: dts) x)
      with (physics_run d dts (updatePhysics d dt x)).
    destruct (IH (updatePhysics d dt x)) as [[Hm [Hk Ha]] [Hw Hp]].
    unfold same_parameters. rewrite <- Hm, <- Hk, <- Ha, Hw, Hp.
    simpl. repeat split.
Qed.

(** After at least one step the position and the velocity are the
    closed forms at the time reached, whatever came before. *)
Lemma physics_run_closed_form (dts : list jsnum) (x : globals) :
  dts <> [] ->
  let x' := physics_run d dts x in
  position x' = (initialAmplitude x * jcos (angularFrequency x * time x'))%js /\
  velocity x' = (- initialAmplitude x * angularFrequency x
                 * jsin (angularFrequency x * time x'))%js.
Proof.
  intros Hne. destruct (exists_last Hne) as [pre [dt ->]].
  unfold physics_run. rewrite fold_left_app. simpl.
  fold (physics_run d pre x).
  destruct (physics_run_parameters pre x) as [[_ [_ Ha]] [Hw _]].
  rewrite <- Ha, Hw. split; reflexivity.
Qed.

End Physics.



(** ** Parameter updates *)

Lemma drawSimulation_frame (w : world) :
  g (drawSimulation w) = g w /\ raf (drawSimulation w) = raf w /\
  graphCanvas (doc (drawSimulation w)) = graphCanvas (doc w).
Proof. repeat split. Qed.

Lemma drawGraph_frame (w : world) :
  g (drawGraph w) = g w /\ raf (drawGraph w) = raf w /\
  simCanvas (doc (drawGraph w)) = simCanvas (doc w).
Proof. repeat split. Qed.

Lemma resetSimulation_globals (w : world) :
  g (resetSimulation w) = rest_state (g w).
Proof. reflexivity. Qed.

Lemma updateParameters_globals (w : world) :
  g (updateParameters w) = rest_state (read_parameters (doc w) (g w)).
Proof. reflexivity. Qed.

Lemma period_fin (k m : R) :
  0 < m -> 0 < k ->
  (Fin 2 * Math_PI / Fin (sqrt (k / m)))%js = Fin (2 * PI / sqrt (k / m)).
Proof.
  intros Hm Hk. unfold Math_PI. simpl jmul. apply jdiv_fin.
  apply Rgt_not_eq. apply sqrt_lt_R0. apply ratio_pos; assumption.
Qed.

Lemma updateParameters_valid (w : world) (m k : R) :
  massInput (doc w) = Fin m -> springConstantInput (doc w) = Fin k ->
  0 < m -> 0 < k ->
  angularFrequency (g (updateParameters w)) = Fin (sqrt (k / m)) /\
  period (g (updateParameters w)) = Fin (2 * PI / sqrt (k / m)).
Proof.
  intros Hm Hk Hmpos Hkpos.
  change (jsqrt (springConstantInput (doc w) / massInput (doc w))%js
          = Fin (sqrt (k / m)) /\
          (Fin 2 * Math_PI
           / jsqrt (springConstantInput (doc w) / massInput (doc w)))%js
          = Fin (2 * PI / sqrt (k / m))).
  rewrite Hm, Hk, omega_fin by assumption.
  split; [reflexivity | apply period_fin; assumption].
Qed.

(** C2.  Right after [updateParameters] the variables hold the values
    just read from the controls, [angularFrequency] is
    [Math.sqrt(springConstant / mass)] and [period] is
    [(2 * Math.PI) / angularFrequency] of those values; for a positive
    mass [m] and spring constant [k] these are the numbers
    [sqrt (k / m)] and [2 * PI / sqrt (k / m)]. *)
Theorem updateParameters_derived_fields :
  forall w : world,
    let x := g (updateParameters w) in
    (mass x = massInput (doc w) /\
     springConstant x = springConstantInput (doc w) /\
     initialAmplitude x = initialAmplitudeInput (doc w)) /\
    angularFrequency x = jsqrt (springConstant x / mass x)%js /\
    period x = (Fin 2 * Math_PI / angularFrequency x)%js /\
    (forall m k : R,
        massInput (doc w) = Fin m ->
        springConstantInput (doc w) = Fin k ->
        0 < m -> 0 < k ->
        angularFrequency x = Fin (sqrt (k / m)) /\
        period x = Fin (2 * PI / sqrt (k / m))).
Proof.
  intros w x. subst x.
  split; [repeat split |].
  split; [reflexivity |]. split; [reflexivity |].
  intros m k Hm Hk Hmpos Hkpos. apply updateParameters_valid; assumption.
Qed.

Lemma updateParameters_derived_fields_witness :
  angularFrequency (g (updateParameters example_world)) = Fin (sqrt (10 / 1)) /\
  period (g (updateParameters example_world)) = Fin (2 * PI / sqrt (10 / 1)).
Proof.
  apply (proj2 (proj2 (proj2
           (updateParameters_derived_fields example_world))) 1 10).
  - reflexivity.
  - reflexivity.
  - lra.
  - lra.
Defined.

(** ** The run loop and the frame queue *)

Lemma cancel_only_pending (h n : nat) :
  cancelAnimationFrame h (mkFrames [h] n) = mkFrames [] n.
Proof.
  unfold cancelAnimationFrame. simpl. rewrite Nat.eqb_refl. reflexivity.
Qed.

Lemma resetSimulation_raf (w : world) :
  raf (resetSimulation w)
  = match animationFrameId (g w) with
    | Some id =>
        if truthy_handle (Some id) then cancelAnimationFrame id (raf w)
        else raf w
    | None => raf w
    end.
Proof. reflexivity. Qed.

Lemma resetSimulation_queue (w : world) :
  queue_inv w ->
  pending (raf (resetSimulation w)) = [] /\
  next_handle (raf (resetSimulation w)) = next_handle (raf w).
Proof.
  intros [Hn Hq]. rewrite resetSimulation_raf.
  destruct (simulationActive (g w)).
  - destruct Hq as [h [Hid Hp]]. rewrite Hid. simpl truthy_handle. cbv iota.
    destruct (raf w) as [p n]. simpl in Hp. subst p.
    rewrite cancel_only_pending. split; reflexivity.
  - destruct (animationFrameId (g w)) as [id |]; [| split; [assumption | reflexivity]].
    destruct (truthy_handle (Some id)); [| split; [assumption | reflexivity]].
    unfold cancelAnimationFrame. rewrite Hq. split; reflexivity.
Qed.

Lemma resetSimulation_inv (w : world) :
  queue_inv w -> queue_inv (resetSimulation w).
Proof.
  intros Hinv. destruct (resetSimulation_queue w Hinv) as [Hp Hn].
  destruct Hinv as [H1 _]. split.
  - rewrite Hn. assumption.
  - rewrite resetSimulation_globals. simpl. assumption.
Qed.

Lemma updateParameters_inv (w : world) :
  queue_inv w -> queue_inv (updateParameters w).
Proof.
  intros Hinv. unfold updateParameters. apply resetSimulation_inv.
  exact Hinv.
Qed.

Lemma startSimulation_inv (now : jsnum) (w : world) :
  queue_inv w -> queue_inv (startSimulation now w).
Proof.
  intros [Hn Hq]. unfold startSimulation.
  destruct (simulationActive (g w)) eqn:Hact.
  - split; [assumption |]. rewrite Hact. assumption.
  - unfold queue_inv. simpl. rewrite Hq. split; [lia |].
    destruct (next_handle (raf w)) as [| h]; [lia |].
    exists h. split; reflexivity.
Qed.

Lemma animationLoop_active (ts : jsnum) (w : world) :
  simulationActive (g w) = true ->
  g (animationLoop ts w)
  = with_animationFrameId (Some (next_handle (raf w)))
      (updatePhysics (doc w) (deltaTime_of (g w) ts)
                     (with_lastTime (Some ts) (g w))) /\
  raf (animationLoop ts w)
  = mkFrames (pending (raf w) ++ [next_handle (raf w)])
             (S (next_handle (raf w))).
Proof.
  intros Hact. unfold animationLoop. cbv zeta.
  change (simulationActive (g (with_g (with_lastTime (Some ts) (g w)) w)))
    with (simulationActive (g w)).
  rewrite Hact. split; reflexivity.
Qed.

Lemma animationLoop_inv (ts : jsnum) (w : world) :
  (1 <= next_handle (raf w))%nat ->
  simulationActive (g w) = true ->
  pending (raf w) = [] ->
  queue_inv (animationLoop ts w).
Proof.
  intros Hn Hact Hp. destruct (animationLoop_active ts w Hact) as [Hg Hr].
  unfold queue_inv. rewrite Hg, Hr, Hp.
  change (simulationActive
            (with_animationFrameId (Some (next_handle (raf w)))
               (updatePhysics (doc w) (deltaTime_of (g w) ts)
                  (with_lastTime (Some ts) (g w)))))
    with (simulationActive (g w)).
  rewrite Hact. cbn [next_handle pending app].
  split; [lia |].
  destruct (next_handle (raf w)) as [| h]; [lia |].
  exists h. split; reflexivity.
Qed.

Lemma run_frame_idle (ts : jsnum) (w : world) :
  pending (raf w) = [] -> run_frame ts w = w.
Proof.
  intros Hp. unfold run_frame. rewrite Hp. simpl.
  destruct w as [x d [p n]]. simpl in Hp. subst p. reflexivity.
Qed.

Lemma run_frame_inv (ts : jsnum) (w : world) :
  queue_inv w -> queue_inv (run_frame ts w).
Proof.
  intros [Hn Hq].
  destruct (simulationActive (g w)) eqn:Hact.
  - destruct Hq as [h [Hid Hp]]. unfold run_frame. rewrite Hp. simpl.
    apply animationLoop_inv; simpl; auto.
  - rewrite run_frame_idle by assumption. split; [assumption |].
    rewrite Hact. assumption.
Qed.

Lemma load_inv (d : document) : queue_inv (load d).
Proof.
  unfold load. apply updateParameters_inv. split; simpl; [lia | reflexivity].
Qed.

Lemma reachable_inv (w : world) : reachable w -> queue_inv w.
Proof.
  induction 1 as [d _ | w e _ IH].
  - apply load_inv.
  - destruct e as [c v | now | | ts]; simpl.
    + apply updateParameters_inv. exact IH.
    + apply startSimulation_inv. exact IH.
    + apply resetSimulation_inv. exact IH.
    + apply run_frame_inv. exact IH.
Qed.

(** C3.  After [resetSimulation], from any state whatever: [time] is 0,
    [position] is the initial amplitude, [velocity] is 0, [graphHistory]
    is empty and [simulationActive] is false; and in every state the page
    can reach no callback is left waiting, so that the next frame runs
    nothing and leaves the reset state as it is. *)
Theorem resetSimulation_postcondition :
  forall w : world,
    let w' := resetSimulation w in
    time (g w') = Fin 0 /\
    position (g w') = initialAmplitude (g w') /\
    initialAmplitude (g w') = initialAmplitude (g w) /\
    velocity (g w') = Fin 0 /\
    graphHistory (g w') = [] /\
    simulationActive (g w') = false /\
    (reachable w ->
     pending (raf w') = [] /\ forall ts : jsnum, run_frame ts w' = w').
Proof.
  intros w w'. subst w'. rewrite resetSimulation_globals. simpl.
  do 6 (split; [reflexivity |]).
  intros Hr. apply reachable_inv in Hr.
  destruct (resetSimulation_queue w Hr) as [Hp _].
  split; [exact Hp |].
  intros ts. apply run_frame_idle. exact Hp.
Qed.

Lemma resetSimulation_postcondition_witness :
  pending (raf (resetSimulation example_running)) = [] /\
  forall ts : jsnum,
    run_frame ts (resetSimulation example_running)
    = resetSimulation example_running.
Proof.
  apply (proj2 (proj2 (proj2 (proj2 (proj2 (proj2
           (resetSimulation_postcondition example_running))))))).
  unfold example_running, example_world.
  apply reach_step. apply reach_load.
  split; reflexivity.
Defined.

(** C6.  [startSimulation] on an active simulation returns the state
    unchanged, queue included.  On an idle one it sets
    [simulationActive], records [performance.now()] in [lastTime] and
    requests one frame, whose handle it keeps in [animationFrameId];
    the parameters, [time], [position], [velocity], [graphHistory] and
    the page stay as they were, and in every reachable state the
    requested callback is then the only one waiting. *)
Theorem startSimulation_spec :
  forall (now : jsnum) (w : world),
    (simulationActive (g w) = true -> startSimulation now w = w) /\
    (simulationActive (g w) = false ->
     let w' := startSimulation now w in
     simulationActive (g w') = true /\
     lastTime (g w') = Some now /\
     animationFrameId (g w') = Some (next_handle (raf w)) /\
     pending (raf w') = pending (raf w) ++ [next_handle (raf w)] /\
     (time (g w') = time (g w) /\ position (g w') = position (g w) /\
      velocity (g w') = velocity (g w) /\
      graphHistory (g w') = graphHistory (g w)) /\
     (same_parameters (g w) (g w') /\
      angularFrequency (g w') = angularFrequency (g w) /\
      period (g w') = period (g w)) /\
     doc w' = doc w /\
     (reachable w -> pending (raf w') = [next_handle (raf w)])).
Proof.
  intros now w. split; intros Hact.
  - unfold startSimulation. rewrite Hact. reflexivity.
  - unfold startSimulation. rewrite Hact. simpl.
    unfold same_parameters. simpl.
    repeat (split; [reflexivity |]).
    split; [repeat split |]. split; [repeat split |]. split; [reflexivity |].
    intros Hr. apply reachable_inv in Hr. destruct Hr as [_ Hq].
    rewrite Hact in Hq. rewrite Hq. reflexivity.
Qed.

Lemma startSimulation_spec_witness :
  startSimulation (Fin 2000) example_running = example_running /\
  pending (raf (startSimulation (Fin 1000) example_world))
  = [next_handle (raf example_world)].
Proof.
  split.
  - apply (proj1 (startSimulation_spec (Fin 2000) example_running)).
    reflexivity.
  - apply (proj2 (startSimulation_spec (Fin 1000) example_world)).
    + reflexivity.
    + unfold example_world. apply reach_load. split; reflexivity.
Defined.

Lemma truthy_fin (x : R) : x <> 0 -> truthy (Fin x) = true.
Proof.
  intros Hx. unfold truthy. destruct (Req_dec_T x 0); [contradiction | reflexivity].
Qed.

Lemma animationLoop_time (ts : jsnum) (w : world) :
  simulationActive (g w) = true ->
  time (g (animationLoop ts w)) = (time (g w) + deltaTime_of (g w) ts)%js /\
  lastTime (g (animationLoop ts w)) = Some ts.
Proof.
  intros Hact. destruct (animationLoop_active ts w Hact) as [Hg _].
  rewrite Hg. split; reflexivity.
Qed.

Lemma deltaTime_since (ts prev : jsnum) (x : globals) :
  lastTime x = Some prev -> truthy prev = true ->
  deltaTime_of x ts = ((ts - prev) / Fin 1000)%js.
Proof.
  intros Hl Ht. unfold deltaTime_of, lastTime_or. rewrite Hl, Ht. reflexivity.
Qed.

Lemma run_frame_single (ts : jsnum) (h : nat) (w : world) :
  pending (raf w) = [h] ->
  run_frame ts w
  = animationLoop ts (with_raf (mkFrames [] (next_handle (raf w))) w).
Proof. intros Hp. unfold run_frame. rewrite Hp. reflexivity. Qed.

(** In every state the page can reach the derived fields agree with the
    parameters: only [updateParameters] writes either. *)
Lemma reachable_consistent (w : world) :
  reachable w -> derived_consistent (g w).
Proof.
  induction 1 as [d _ | w e Hr IH].
  - split; reflexivity.
  - destruct e as [c v | now | | ts]; cbn [handle].
    + split; reflexivity.
    + unfold startSimulation. destruct (simulationActive (g w)); exact IH.
    + exact IH.
    + destruct (reachable_inv w Hr) as [_ Hq].
      destruct (simulationActive (g w)) eqn:Hact.
      * destruct Hq as [h [_ Hp]].
        destruct (animationLoop_active ts
                    (with_raf (mkFrames [] (next_handle (raf w))) w) Hact)
          as [Hg _].
        rewrite (run_frame_single ts (S h) w Hp).
        unfold derived_consistent. rewrite Hg. exact IH.
      * rewrite run_frame_idle by assumption. exact IH.
Qed.

(** The claim of C7 about the first tick fails: with the start button
    clicked at 1000 ms and the first frame rendered at 1016 ms, the first
    tick sees a delta of 0.016 s and moves the simulated time off 0. *)
Lemma first_tick_advances_time :
  time (g example_running) = Fin 0 /\
  deltaTime_of (g example_running) (Fin 1016) = Fin ((1016 + - 1000) / 1000) /\
  deltaTime_of (g example_running) (Fin 1016) <> Fin 0 /\
  time (g (handle (Frame (Fin 1016)) example_running))
  = Fin (0 + (1016 + - 1000) / 1000) /\
  time (g (handle (Frame (Fin 1016)) example_running))
  <> time (g example_running).
Proof.
  assert (Hd : deltaTime_of (g example_running) (Fin 1016)
               = Fin ((1016 + - 1000) / 1000)).
  { rewrite (deltaTime_since (Fin 1016) (Fin 1000)).
    - simpl jsub. apply jdiv_fin. lra.
    - reflexivity.
    - apply truthy_fin. lra. }
  assert (Ht : time (g (handle (Frame (Fin 1016)) example_running))
               = Fin (0 + (1016 + - 1000) / 1000)).
  { simpl handle. rewrite (run_frame_single (Fin 1016) 1) by reflexivity.
    destruct (animationLoop_time (Fin 1016)
                (with_raf (mkFrames [] (next_handle (raf example_running)))
                          example_running)) as [H _]; [reflexivity |].
    rewrite H. change (g (with_raf _ example_running)) with (g example_running).
    rewrite Hd. reflexivity. }
  split; [reflexivity |]. split; [exact Hd |]. split.
  - rewrite Hd. intros E. injection E as E. lra.
  - split; [exact Ht |]. rewrite Ht. intros E. injection E as E. lra.
Qed.

(** C7, as the code has it.  A tick of an active simulation stores its
    time stamp in [lastTime] and advances [time] by exactly [deltaTime],
    where [deltaTime] is the time stamp minus the stored [lastTime], in
    seconds: the previous tick's stamp or, on the first tick after
    [startSimulation], the wall-clock reference recorded there.  Only a
    missing or falsy [lastTime] (unset, 0, NaN) is replaced by the
    current stamp, which gives a delta of 0. *)
Theorem tick_advances_by_elapsed_time :
  (forall (ts : jsnum) (w : world),
      simulationActive (g w) = true ->
      let w' := animationLoop ts w in
      lastTime (g w') = Some ts /\
      time (g w') = (time (g w) + deltaTime_of (g w) ts)%js /\
      (forall prev : jsnum,
          lastTime (g w) = Some prev -> truthy prev = true ->
          deltaTime_of (g w) ts = ((ts - prev) / Fin 1000)%js) /\
      (lastTime (g w) = None \/
       (exists prev : jsnum, lastTime (g w) = Some prev /\ truthy prev = false) ->
       forall r : R, ts = Fin r -> deltaTime_of (g w) ts = Fin 0)) /\
  (forall (now ts : jsnum) (w : world),
      simulationActive (g w) = false ->
      truthy now = true ->
      time (g (animationLoop ts (startSimulation now w)))
      = (time (g w) + (ts - now) / Fin 1000)%js).
Proof.
  split.
  - intros ts w Hact w'. subst w'.
    destruct (animationLoop_time ts w Hact) as [Ht Hl].
    split; [exact Hl |]. split; [exact Ht |]. split.
    + intros prev Hp Htr. apply deltaTime_since; assumption.
    + intros Hfalsy r ->. unfold deltaTime_of, lastTime_or.
      assert (E : (Fin r - Fin r)%js = Fin (r + - r)) by reflexivity.
      destruct Hfalsy as [Hn | [prev [Hp Htr]]].
      * rewrite Hn, E, jdiv_fin by lra. f_equal. lra.
      * rewrite Hp, Htr, E, jdiv_fin by lra. f_equal. lra.
  - intros now ts w Hact Htr.
    assert (Hact' : simulationActive (g (startSimulation now w)) = true).
    { unfold startSimulation. rewrite Hact. reflexivity. }
    destruct (animationLoop_time ts _ Hact') as [Ht _]. rewrite Ht.
    rewrite (deltaTime_since ts now).
    + unfold startSimulation. rewrite Hact. reflexivity.
    + unfold startSimulation. rewrite Hact. reflexivity.
    + exact Htr.
Qed.

Lemma tick_advances_by_elapsed_time_witness :
  time (g (animationLoop (Fin 1016) (startSimulation (Fin 1000) example_world)))
  = (time (g example_world) + (Fin 1016 - Fin 1000) / Fin 1000)%js /\
  lastTime (g (animationLoop (Fin 1016) example_running)) = Some (Fin 1016) /\
  deltaTime_of (g example_running) (Fin 1016)
  = ((Fin 1016 - Fin 1000) / Fin 1000)%js /\
  deltaTime_of (g example_unstarted) (Fin 1016) = Fin 0.
Proof.
  split; [| split; [| split]].
  - apply (proj2 tick_advances_by_elapsed_time).
    + reflexivity.
    + apply truthy_fin. lra.
  - apply (proj1 tick_advances_by_elapsed_time (Fin 1016) example_running).
    reflexivity.
  - apply (proj1 tick_advances_by_elapsed_time (Fin 1016) example_running).
    + reflexivity.
    + reflexivity.
    + apply truthy_fin. lra.
  - apply (proj1 tick_advances_by_elapsed_time (Fin 1016) example_unstarted)
      with (r := 1016).
    + reflexivity.
    + left. reflexivity.
    + reflexivity.
Defined.

(** ** Bounds on the motion *)


Lemma Rabs_cos_le_1 (a : R) : Rabs (cos a) <= 1.
Proof. apply Rabs_le. apply COS_bound. Qed.

Lemma Rabs_sin_le_1 (a : R) : Rabs (sin a) <= 1.
Proof. apply Rabs_le. apply SIN_bound. Qed.

Lemma scaled_bound (c u : R) : 0 <= c -> Rabs u <= 1 -> Rabs (c * u) <= c.
Proof.
  intros Hc Hu. rewrite Rabs_mult, (Rabs_pos_eq c) by assumption.
  rewrite <- (Rmult_1_r c) at 2. apply Rmult_le_compat_l; assumption.
Qed.

Lemma jmul_fin_inv (a b : jsnum) (B : R) :
  (a * b)%js = Fin B ->
  exists x y : R, a = Fin x /\ b = Fin y /\ B = x * y.
Proof.
  destruct a as [x | | |], b as [y | | |]; cbn [jmul]; intros H;
    try discriminate H;
    try (unfold inf_of, opp_sign in H; destruct (Rsign _); discriminate H).
  injection H as <-. exists x, y. repeat split.
Qed.

Lemma jsqrt_fin_inv (a : jsnum) (w : R) : jsqrt a = Fin w -> 0 <= w.
Proof.
  destruct a as [x | | |]; cbn [jsqrt]; intros H; try discriminate H.
  destruct (Rlt_dec x 0); [discriminate H |].
  injection H as <-. apply sqrt_pos.
Qed.

(** The claim of C10 fails as it is worded: with the mass at 0 the
    parameters are finite, the amplitude is not negative and the
    script's [springConstant / mass] is [Infinity], which is greater
    than 0; yet a physics step makes the position and the velocity
    [NaN], which lie within no bound. *)
Lemma zero_mass_leaves_band :
  (is_finite (mass zero_mass_globals) /\
   is_finite (springConstant zero_mass_globals) /\
   initialAmplitude zero_mass_globals = Fin 1) /\
  derived_consistent zero_mass_globals /\
  (springConstant zero_mass_globals / mass zero_mass_globals > Fin 0)%js
  = true /\
  position (updatePhysics example_document (Fin 0.016) zero_mass_globals)
  = NaN /\
  velocity (updatePhysics example_document (Fin 0.016) zero_mass_globals)
  = NaN /\
  (initialAmplitude zero_mass_globals
   >= position (updatePhysics example_document (Fin 0.016) zero_mass_globals))%js
  = false.
Proof.
  assert (Hq : (Fin 10 / Fin 0)%js = PInf).
  { unfold jdiv. destruct (Req_dec_T 0 0) as [_ | Hn]; [| contradiction].
    unfold Rsign. destruct (Rlt_dec 10 0); [lra |].
    destruct (Rlt_dec 0 10); [reflexivity | lra]. }
  assert (Hi : (PInf * Fin (0 + 0.016))%js = PInf).
  { unfold jmul, Rsign. destruct (Rlt_dec (0 + 0.016) 0); [lra |].
    destruct (Rlt_dec 0 (0 + 0.016)); [reflexivity | lra]. }
  assert (Hp : position (updatePhysics example_document (Fin 0.016)
                                        zero_mass_globals) = NaN).
  { cbn [updatePhysics position zero_mass_globals initialAmplitude
         angularFrequency time jadd].
    rewrite Hq. cbn [jsqrt]. rewrite Hi. reflexivity. }
  split; [repeat split |]. split; [split; reflexivity |]. split.
  - cbn [zero_mass_globals springConstant mass]. rewrite Hq. reflexivity.
  - split; [exact Hp |]. split.
    + cbn [updatePhysics velocity zero_mass_globals initialAmplitude
           angularFrequency time jadd].
      rewrite Hq. cbn [jsqrt]. rewrite Hi. cbn [jsin].
      destruct (- Fin 1 * PInf)%js; reflexivity.
    + rewrite Hp. reflexivity.
Qed.

(** C10, as the code has it.  For a finite amplitude [A >= 0]: after
    every physics step for which the products [angularFrequency * time]
    and [initialAmplitude * angularFrequency], as the script computes
    them, are finite numbers, [|position| <= A] and
    [|velocity| <= initialAmplitude * angularFrequency]. *)
Theorem physics_stays_in_band :
  forall (d : document) (x : globals) (A : R) (dts : list jsnum),
    initialAmplitude x = Fin A ->
    0 <= A ->
    derived_consistent x ->
    dts <> [] ->
    forall th B : R,
      (angularFrequency x * time (physics_run d dts x))%js = Fin th ->
      (initialAmplitude x * angularFrequency x)%js = Fin B ->
      exists p v : R,
        position (physics_run d dts x) = Fin p /\
        velocity (physics_run d dts x) = Fin v /\
        Rabs p <= A /\ Rabs v <= B.
Proof.
  intros d x A dts HA HApos [Hw _] Hne th B Hth HB.
  destruct (physics_run_closed_form d dts x Hne) as [Hp Hv].
  destruct (jmul_fin_inv _ _ _ HB) as (a & w & Ha & Hom & ->).
  rewrite HA in Ha. injection Ha as <-.
  assert (Hw0 : 0 <= w).
  { apply (jsqrt_fin_inv (springConstant x / mass x)%js).
    rewrite <- Hw. exact Hom. }
  rewrite Hth, HA in Hp. rewrite Hth, HA, Hom in Hv.
  cbn [jmul jneg jcos jsin] in Hp, Hv.
  exists (A * cos th), (- A * w * sin th).
  split; [exact Hp |]. split; [exact Hv |]. split.
  - apply scaled_bound; [assumption | apply Rabs_cos_le_1].
  - replace (- A * w * sin th) with (- (A * w * sin th)) by ring.
    rewrite Rabs_Ropp. apply scaled_bound; [| apply Rabs_sin_le_1].
    apply Rmult_le_pos; assumption.
Qed.

Lemma physics_stays_in_band_witness :
  exists p v : R,
    position (physics_run example_document [Fin 0.5; Fin 0.25] example_globals)
    = Fin p /\
    velocity (physics_run example_document [Fin 0.5; Fin 0.25] example_globals)
    = Fin v /\
    Rabs p <= 1 /\ Rabs v <= 1 * sqrt (10 / 1).
Proof.
  assert (Hom : angularFrequency example_globals = Fin (sqrt (10 / 1))).
  { change (jsqrt (Fin 10 / Fin 1)%js = Fin (sqrt (10 / 1))).
    apply omega_fin; lra. }
  apply (physics_stays_in_band example_document example_globals 1
           [Fin 0.5; Fin 0.25])
    with (th := sqrt (10 / 1) * (0 + 0.5 + 0.25)).
  - reflexivity.
  - lra.
  - split; reflexivity.
  - discriminate.
  - rewrite Hom. reflexivity.
  - rewrite Hom. reflexivity.
Defined.

(** ** Parameters out of range *)

Lemma Rsign_pos (x : R) : 0 < x -> Rsign x = Pos.
Proof.
  intros Hx. unfold Rsign.
  destruct (Rlt_dec x 0); [lra |]. destruct (Rlt_dec 0 x); [reflexivity | lra].
Qed.

Lemma jdiv_by_zero (x : R) : 0 < x -> (Fin x / Fin 0)%js = PInf.
Proof.
  intros Hx. unfold jdiv.
  destruct (Req_dec_T 0 0) as [_ | Hn]; [| contradiction].
  rewrite Rsign_pos by assumption. reflexivity.
Qed.

Lemma jmul_inf_pos (x : R) : 0 < x -> (PInf * Fin x)%js = PInf.
Proof. intros Hx. unfold jmul. rewrite Rsign_pos by assumption. reflexivity. Qed.

(** The claim of C5 fails: with the mass control at 0 the script stores
    the zero mass as it is, derives an infinite angular frequency and a
    zero period from it, reports nothing but the usual label, and the
    first tick of the simulation makes the position [NaN]. *)
Lemma zero_mass_reaches_state :
  let w := load zero_mass_document in
  mass (g w) = Fin 0 /\
  angularFrequency (g w) = PInf /\
  period (g w) = Fin 0 /\
  massValueSpan (doc w) = Some (toFixed (Fin 0) 1) /\
  position (g (events [ClickStart (Fin 1000); Frame (Fin 1016)] w)) = NaN.
Proof.
  intros w.
  assert (Hw : angularFrequency (g w) = PInf).
  { change (jsqrt (Fin 10 / Fin 0)%js = PInf).
    rewrite jdiv_by_zero by lra. reflexivity. }
  split; [reflexivity |]. split; [exact Hw |]. split.
  - change ((Fin 2 * Math_PI / angularFrequency (g w))%js = Fin 0).
    rewrite Hw. reflexivity.
  - split; [reflexivity |].
    unfold events. cbn [fold_left handle].
    set (w1 := startSimulation (Fin 1000) w).
    rewrite (run_frame_single (Fin 1016) 1) by reflexivity.
    set (w2 := with_raf (mkFrames [] (next_handle (raf w1))) w1).
    destruct (animationLoop_active (Fin 1016) w2) as [Hg _]; [reflexivity |].
    rewrite Hg.
    change (initialAmplitude (g w2)
            * jcos (angularFrequency (g w)
                    * (time (g w2) + deltaTime_of (g w2) (Fin 1016)))
            = NaN)%js.
    rewrite Hw.
    rewrite (deltaTime_since (Fin 1016) (Fin 1000));
      [| reflexivity | apply truthy_fin; lra].
    change (time (g w2)) with (Fin 0). cbn [jsub jneg jadd].
    rewrite jdiv_fin by lra. cbn [jadd].
    rewrite jmul_inf_pos.
    + reflexivity.
    + lra.
Qed.

(** C5, as the code has it.  [updateParameters] checks nothing: whatever
    the three controls hold, the values read are stored as they are and
    shown in the labels, [angularFrequency] and [period] are computed
    from them, and the simulation is reset; nothing is rejected, clamped
    or signalled.  Whenever the quotient [springConstant / mass] the
    script computes is a finite positive number, [angularFrequency] is a
    finite positive number. *)
Theorem updateParameters_unvalidated :
  forall w : world,
    let w' := updateParameters w in
    (mass (g w') = massInput (doc w) /\
     springConstant (g w') = springConstantInput (doc w) /\
     initialAmplitude (g w') = initialAmplitudeInput (doc w)) /\
    (massValueSpan (doc w') = Some (toFixed (massInput (doc w)) 1) /\
     springConstantValueSpan (doc w')
     = Some (toFixed (springConstantInput (doc w)) 0) /\
     initialAmplitudeValueSpan (doc w')
     = Some (toFixed (initialAmplitudeInput (doc w)) 1)) /\
    (angularFrequency (g w')
     = jsqrt (springConstantInput (doc w) / massInput (doc w))%js /\
     period (g w') = (Fin 2 * Math_PI / angularFrequency (g w'))%js) /\
    (simulationActive (g w') = false /\
     time (g w') = Fin 0 /\
     position (g w') = initialAmplitudeInput (doc w) /\
     velocity (g w') = Fin 0) /\
    (forall q : R,
        (springConstantInput (doc w) / massInput (doc w))%js = Fin q ->
        0 < q ->
        exists om : R, angularFrequency (g w') = Fin om /\ 0 < om).
Proof.
  intros w w'. subst w'.
  split; [repeat split |]. split; [repeat split |].
  split; [split; reflexivity |]. split; [repeat split |].
  intros q Hq Hpos. exists (sqrt q). split.
  - change (jsqrt (springConstantInput (doc w) / massInput (doc w))%js
            = Fin (sqrt q)).
    rewrite Hq. apply jsqrt_fin. lra.
  - apply sqrt_lt_R0. exact Hpos.
Qed.

Lemma updateParameters_unvalidated_witness :
  exists om : R,
    angularFrequency (g (updateParameters example_world)) = Fin om /\ 0 < om.
Proof.
  apply (proj2 (proj2 (proj2 (proj2
           (updateParameters_unvalidated example_world)))) (10 / 1)).
  - change ((Fin 10 / Fin 1)%js = Fin (10 / 1)). apply jdiv_fin. lra.
  - lra.
Defined.

(** ** The graph history *)

Lemma perform_dims (k : call) (c : canvas) :
  width (perform k c) = width c /\ height (perform k c) = height c.
Proof.
  destruct k; cbn [perform]; try (split; reflexivity).
  destruct (covers c x y w h); split; reflexivity.
Qed.

Lemma run_dims (ks : list call) (c : canvas) :
  width (run ks c) = width c /\ height (run ks c) = height c.
Proof.
  revert c. induction ks as [| k ks IH]; intros c.
  - split; reflexivity.
  - change (run (k :: ks) c) with (run ks (perform k c)).
    destruct (IH (perform k c)) as [Hw Hh].
    destruct (perform_dims k c) as [Hw' Hh'].
    rewrite Hw, Hh, Hw', Hh'. split; reflexivity.
Qed.

Lemma drawGraph_width (w : world) :
  width (graphCanvas (doc (drawGraph w))) = width (graphCanvas (doc w)).
Proof.
  change (width (run (drawGraph_calls (doc w) (g w)) (graphCanvas (doc w)))
          = width (graphCanvas (doc w))).
  apply run_dims.
Qed.

Lemma resetSimulation_graph_width (w : world) :
  width (graphCanvas (doc (resetSimulation w))) = width (graphCanvas (doc w)).
Proof.
  unfold resetSimulation. rewrite drawGraph_width. reflexivity.
Qed.

Lemma load_graph_width (d : document) :
  width (graphCanvas (doc (load d))) = width (graphCanvas d).
Proof.
  unfold load, updateParameters. rewrite resetSimulation_graph_width.
  reflexivity.
Qed.

(** A frame of an active simulation with one callback waiting. *)
Lemma run_frame_active (ts : jsnum) (h : nat) (w : world) :
  simulationActive (g w) = true ->
  pending (raf w) = [h] ->
  g (run_frame ts w)
  = with_animationFrameId (Some (next_handle (raf w)))
      (updatePhysics (doc w) (deltaTime_of (g w) ts)
                     (with_lastTime (Some ts) (g w))) /\
  raf (run_frame ts w)
  = mkFrames [next_handle (raf w)] (S (next_handle (raf w))) /\
  width (graphCanvas (doc (run_frame ts w))) = width (graphCanvas (doc w)).
Proof.
  intros Hact Hp. rewrite (run_frame_single ts h w Hp).
  set (w0 := with_raf (mkFrames [] (next_handle (raf w))) w).
  destruct (animationLoop_active ts w0 Hact) as [Hg Hr].
  split; [exact Hg |]. split; [exact Hr |].
  unfold animationLoop. cbv zeta.
  change (simulationActive (g (with_g (with_lastTime (Some ts) (g w0)) w0)))
    with (simulationActive (g w)).
  rewrite Hact. cbn [requestAnimationFrame]. cbv beta iota. cbn [doc].
  rewrite drawGraph_width. reflexivity.
Qed.

(** The history after a physics step: the new sample is appended, and
    the oldest one dropped when the count test fires. *)
Lemma updatePhysics_history (d : document) (dt : jsnum) (x : globals) :
  let pushed :=
    graphHistory x
    ++ [mkSample (time x + dt)%js
          (initialAmplitude x * jcos (angularFrequency x * (time x + dt)))%js] in
  graphHistory (updatePhysics d dt x)
  = if (of_nat (S (List.length (graphHistory x))) * (graphScaleX * Fin 0.03)
        > of_N (width (graphCanvas d)) - graphOriginX)%js
    then tl pushed else pushed.
Proof.
  intros pushed. unfold updatePhysics. cbn [graphHistory].
  fold pushed.
  replace (List.length pushed) with (S (List.length (graphHistory x))).
  - reflexivity.
  - unfold pushed. rewrite length_app. cbn [List.length]. lia.
Qed.

(** A frame of a running simulation whose history is still short enough
    for the count test not to fire. *)
Lemma run_frame_tick (r prev : R) (h : nat) (w : world) :
  simulationActive (g w) = true ->
  pending (raf w) = [h] ->
  lastTime (g w) = Some (Fin prev) -> prev <> 0 ->
  INR (S (List.length (graphHistory (g w)))) * (50 * 0.03)
  <= IZR (Z.of_N (width (graphCanvas (doc w)))) + - 50 ->
  let w' := run_frame (Fin r) w in
  let t' := (time (g w) + Fin ((r + - prev) / 1000))%js in
  (time (g w') = t' /\
   graphHistory (g w')
   = graphHistory (g w)
     ++ [mkSample t'
           (initialAmplitude (g w) * jcos (angularFrequency (g w) * t'))%js]) /\
  (lastTime (g w') = Some (Fin r) /\ simulationActive (g w') = true /\
   initialAmplitude (g w') = initialAmplitude (g w) /\
   angularFrequency (g w') = angularFrequency (g w)) /\
  (pending (raf w') = [next_handle (raf w)] /\
   width (graphCanvas (doc w')) = width (graphCanvas (doc w))).
Proof.
  intros Hact Hp Hl Hprev Hfit w' t'. subst w'.
  destruct (run_frame_active (Fin r) h w Hact Hp) as (Hg & Hr & Hw).
  assert (Hd : deltaTime_of (g w) (Fin r) = Fin ((r + - prev) / 1000)).
  { rewrite (deltaTime_since (Fin r) (Fin prev));
      [| assumption | apply truthy_fin; assumption].
    cbn [jsub jneg jadd]. apply jdiv_fin. lra. }
  rewrite Hg, Hr, Hw, Hd.
  cbn [with_animationFrameId time graphHistory lastTime simulationActive
       initialAmplitude angularFrequency pending].
  split; [| split; [| split; reflexivity]].
  - split; [reflexivity |].
    rewrite updatePhysics_history. cbv zeta.
    cbn [with_lastTime time graphHistory initialAmplitude angularFrequency].
    fold t'.
    replace ((of_nat (S (List.length (graphHistory (g w))))
              * (graphScaleX * Fin 0.03)
              > of_N (width (graphCanvas (doc w))) - graphOriginX)%js)
      with false; [reflexivity |].
    symmetry. apply jgt_fin_false. exact Hfit.
  - repeat split. exact Hact.
Qed.

(** What the count test does keep: the samples stay in the order they
    were appended (the new history is the old one with the new sample at
    the end, less at most the oldest sample), and their number stays
    within the plot width divided by 1.5 pixels. *)
Lemma updatePhysics_history_shape (d : document) (dt : jsnum) (x : globals) :
  let pushed :=
    graphHistory x
    ++ [mkSample (time x + dt)%js
          (initialAmplitude x * jcos (angularFrequency x * (time x + dt)))%js] in
  graphHistory (updatePhysics d dt x) = pushed \/
  graphHistory (updatePhysics d dt x) = tl pushed.
Proof.
  intros pushed. rewrite updatePhysics_history. fold pushed.
  destruct (_ > _)%js; [right | left]; reflexivity.
Qed.

Lemma updatePhysics_count_bound (d : document) (dt : jsnum) (x : globals) :
  INR (List.length (graphHistory x)) * (50 * 0.03)
  <= IZR (Z.of_N (width (graphCanvas d))) + - 50 ->
  INR (List.length (graphHistory (updatePhysics d dt x))) * (50 * 0.03)
  <= IZR (Z.of_N (width (graphCanvas d))) + - 50.
Proof.
  intros Hb. rewrite updatePhysics_history. cbv zeta.
  destruct (_ > _)%js eqn:Htest.
  - destruct (graphHistory x) as [| s0 h]; cbn [app tl List.length].
    + cbn [List.length] in Hb. exact Hb.
    + rewrite length_app. cbn [List.length] in *.
      replace (List.length h + 1)%nat with (S (List.length h)) by lia.
      exact Hb.
  - apply jgt_fin_false in Htest.
    rewrite length_app. cbn [List.length].
    replace (List.length (graphHistory x) + 1)%nat
      with (S (List.length (graphHistory x))) by lia.
    exact Htest.
Qed.

(** C4 on the stalled run: two samples are kept, 20 s apart, and at 50
    pixels per second they span 1000 pixels of a plot 750 pixels wide. *)
Theorem history_span_exceeds_plot_width :
  exists (oldest newest : sample) (t1 t2 : R),
    graphHistory (g stalled_run) = [oldest; newest] /\
    s_time oldest = Fin t1 /\ s_time newest = Fin t2 /\
    (t2 - t1) * 50 = 1000 /\
    width (graphCanvas (doc stalled_run)) = 800%N /\
    ((s_time newest - s_time oldest) * graphScaleX
     > of_N (width (graphCanvas (doc stalled_run))) - graphOriginX)%js = true.
Proof.
  unfold stalled_run, events. cbn [fold_left handle].
  set (w1 := startSimulation (Fin 1000) example_world).
  assert (Hw1 : width (graphCanvas (doc w1)) = 800%N).
  { change (doc w1) with (doc (load example_document)). apply load_graph_width. }
  destruct (run_frame_tick 1016 1000 1 w1)
    as ((Ht2 & Hh2) & (Hl2 & Ha2 & HA2 & Hom2) & (Hp2 & Hw2));
    [reflexivity | reflexivity | reflexivity | lra | |].
  { rewrite Hw1. change (graphHistory (g w1)) with (@nil sample).
    cbn [List.length INR Z.of_N]. lra. }
  set (w2 := run_frame (Fin 1016) w1) in *.
  destruct (run_frame_tick 21016 1016 2 w2)
    as ((Ht3 & Hh3) & _ & (_ & Hw3));
    [exact Ha2 | exact Hp2 | exact Hl2 | lra | |].
  { rewrite Hw2, Hw1, Hh2. change (graphHistory (g w1)) with (@nil sample).
    cbn [List.length app INR Z.of_N]. lra. }
  set (w3 := run_frame (Fin 21016) w2) in *.
  rewrite Hh3, Hh2, Ht2, Hw3, Hw2, Hw1.
  change (graphHistory (g w1)) with (@nil sample).
  change (time (g w1)) with (Fin 0).
  cbn [app jadd].
  eexists _, _, _, _.
  split; [reflexivity |]. cbn [s_time]. split; [reflexivity |].
  split; [reflexivity |]. split; [lra |]. split; [reflexivity |].
  unfold graphScaleX, graphOriginX, of_N. cbn [jsub jneg jadd jmul Z.of_N].
  apply jgt_fin. lra.
Qed.

(** ** Drawing on a canvas *)

Lemma run_app (ks1 ks2 : list call) (c : canvas) :
  run (ks1 ++ ks2) c = run ks2 (run ks1 c).
Proof. unfold run. apply fold_left_app. Qed.

Lemma covers_full (c : canvas) :
  covers c (Fin 0) (Fin 0) (of_N (width c)) (of_N (height c)) = true.
Proof.
  unfold covers, of_N. cbn [jadd].
  assert (H0 : (Fin 0 >= Fin 0)%js = true) by (apply jge_fin; lra).
  rewrite H0. cbn [andb].
  apply andb_true_iff. split; apply jge_fin; lra.
Qed.

(** Clearing the full canvas wipes the surface. *)
Lemma clearRect_full (c : canvas) :
  perform (clearRect (Fin 0) (Fin 0) (of_N (width c)) (of_N (height c))) c
  = with_surface [] c.
Proof. cbn [perform]. rewrite covers_full. reflexivity. Qed.

Lemma clearRect_full_mk (W H : N) (fs ss : string) (lw : jsnum)
      (L : list jsnum) (f ta : string) (p : list pathseg) (s : list prim) :
  perform (clearRect (Fin 0) (Fin 0) (of_N W) (of_N H))
          (mkCanvas W H fs ss lw L f ta p s)
  = mkCanvas W H fs ss lw L f ta p [].
Proof. apply (clearRect_full (mkCanvas W H fs ss lw L f ta p s)). Qed.

(** Evaluate a run of calls on a canvas given field by field. *)
Ltac canvas_compute :=
  cbv [run fold_left perform paint with_fillStyle with_strokeStyle
       with_lineWidth with_lineDash with_font with_textAlign with_path
       with_surface width height fillStyle strokeStyle lineWidth lineDash
       font textAlign path surface app map seq Nat.even].

Ltac in_list := repeat first [left; reflexivity | right].

(** ** The scene renderer *)

Lemma world_ext (a b : world) :
  g a = g b -> doc a = doc b -> raf a = raf b -> a = b.
Proof. destruct a, b. cbn [g doc raf]. intros -> -> ->. reflexivity. Qed.

Lemma simCanvas_drawSimulation (w : world) :
  simCanvas (doc (drawSimulation w))
  = run (drawSimulation_calls (doc w) (g w)) (simCanvas (doc w)).
Proof. reflexivity. Qed.

(** The calls depend on the page through the canvas size only, and on
    the variables through [position] and [initialAmplitude] only. *)
Lemma drawSimulation_calls_ext (d1 d2 : document) (x1 x2 : globals) :
  width (simCanvas d1) = width (simCanvas d2) ->
  height (simCanvas d1) = height (simCanvas d2) ->
  position x1 = position x2 ->
  initialAmplitude x1 = initialAmplitude x2 ->
  drawSimulation_calls d1 x1 = drawSimulation_calls d2 x2.
Proof.
  intros Hw Hh Hp Ha. unfold drawSimulation_calls, groundY.
  rewrite Hw, Hh, Hp, Ha. reflexivity.
Qed.

(** Of the canvas it starts from, the scene drawing uses the size and
    the dash pattern, nothing else. *)
Lemma drawSimulation_run_blank (d : document) (x : globals) (c : canvas) :
  width c = width (simCanvas d) -> height c = height (simCanvas d) ->
  run (drawSimulation_calls d x) c
  = run (drawSimulation_calls d x)
        (blank_canvas (width c) (height c) (lineDash c)).
Proof.
  intros Hw Hh. unfold drawSimulation_calls. cbv zeta.
  rewrite <- Hw, <- Hh. rewrite <- !app_comm_cons. cbn [app].
  destruct c as [W H fs ss lw L f ta p s]. unfold blank_canvas.
  cbn [width height lineDash].
  change (run (?k :: ?ks) ?c) with (run ks (perform k c)).
  rewrite !clearRect_full_mk. canvas_compute. reflexivity.
Qed.

Lemma drawSimulation_run_lineDash (d : document) (x : globals) (c : canvas) :
  lineDash (run (drawSimulation_calls d x) c) = [].
Proof.
  unfold drawSimulation_calls. cbv zeta. rewrite app_assoc, run_app.
  destruct (run _ c) as [W H fs ss lw L f ta p s].
  canvas_compute. reflexivity.
Qed.

Lemma drawSimulation_block (d : document) (x : globals) (c : canvas) :
  width c = width (simCanvas d) -> height c = height (simCanvas d) ->
  In (FilledRect "#e74c3c"
        (equilibriumX + position x * simScale - blockWidth / Fin 2)%js
        (groundY d - blockHeight)%js blockWidth blockHeight)
     (surface (run (drawSimulation_calls d x) c)).
Proof.
  intros Hw Hh. unfold drawSimulation_calls. cbv zeta.
  rewrite <- Hw, <- Hh. rewrite <- !app_comm_cons. cbn [app].
  destruct c as [W H fs ss lw L f ta p s]. cbn [width height].
  change (run (?k :: ?ks) ?c) with (run ks (perform k c)).
  rewrite clearRect_full_mk. canvas_compute. cbn [In]. in_list.
Qed.

Lemma drawSimulation_twice (d : document) (x : globals) (c : canvas) :
  width c = width (simCanvas d) -> height c = height (simCanvas d) ->
  lineDash c = [] ->
  run (drawSimulation_calls d x) (run (drawSimulation_calls d x) c)
  = run (drawSimulation_calls d x) c.
Proof.
  intros Hw Hh HL.
  destruct (run_dims (drawSimulation_calls d x) c) as [Hw' Hh'].
  rewrite (drawSimulation_run_blank d x (run (drawSimulation_calls d x) c))
    by congruence.
  rewrite drawSimulation_run_lineDash, Hw', Hh'.
  rewrite (drawSimulation_run_blank d x c) by assumption.
  rewrite HL. reflexivity.
Qed.

(** In every state the page can reach the scene canvas was last touched
    by [drawSimulation], which leaves the dash pattern empty. *)
Lemma drawSimulation_dash (w : world) :
  lineDash (simCanvas (doc (drawSimulation w))) = [].
Proof. rewrite simCanvas_drawSimulation. apply drawSimulation_run_lineDash. Qed.

Lemma resetSimulation_dash (w : world) :
  lineDash (simCanvas (doc (resetSimulation w))) = [].
Proof.
  unfold resetSimulation.
  destruct (drawGraph_frame
              (drawSimulation
                 (mkWorld (rest_state (g w)) (doc w)
                    match animationFrameId (g w) with
                    | Some id =>
                        if truthy_handle (Some id)
                        then cancelAnimationFrame id (raf w) else raf w
                    | None => raf w
                    end))) as (_ & _ & Hs).
  cbv zeta. rewrite Hs. apply drawSimulation_dash.
Qed.

Lemma animationLoop_dash (ts : jsnum) (w : world) :
  lineDash (simCanvas (doc w)) = [] ->
  lineDash (simCanvas (doc (animationLoop ts w))) = [].
Proof.
  intros HL. unfold animationLoop. cbv zeta.
  change (simulationActive (g (with_g (with_lastTime (Some ts) (g w)) w)))
    with (simulationActive (g w)).
  destruct (simulationActive (g w)).
  - cbn [requestAnimationFrame]. cbv beta iota. cbn [doc].
    match goal with
    | |- lineDash (simCanvas (doc (drawGraph ?u))) = _ =>
        destruct (drawGraph_frame u) as (_ & _ & Hs); rewrite Hs
    end.
    apply drawSimulation_dash.
  - exact HL.
Qed.

Lemma run_frame_dash (ts : jsnum) (w : world) :
  lineDash (simCanvas (doc w)) = [] ->
  lineDash (simCanvas (doc (run_frame ts w))) = [].
Proof.
  intros HL. unfold run_frame.
  assert (H0 : lineDash
                 (simCanvas
                    (doc (with_raf (mkFrames [] (next_handle (raf w))) w)))
               = []) by exact HL.
  revert H0. generalize (with_raf (mkFrames [] (next_handle (raf w))) w).
  induction (pending (raf w)) as [| h hs IH]; intros u Hu.
  - exact Hu.
  - cbn [fold_left]. apply IH. apply animationLoop_dash. exact Hu.
Qed.

Lemma reachable_dash (w : world) :
  reachable w -> lineDash (simCanvas (doc w)) = [].
Proof.
  induction 1 as [d _ | w e _ IH].
  - unfold load, updateParameters. apply resetSimulation_dash.
  - destruct e as [c v | now | | ts]; cbn [handle].
    + unfold updateParameters. apply resetSimulation_dash.
    + unfold startSimulation. destruct (simulationActive (g w)); exact IH.
    + apply resetSimulation_dash.
    + apply run_frame_dash. exact IH.
Qed.

Lemma drawSimulation_idempotent (w : world) :
  lineDash (simCanvas (doc w)) = [] ->
  drawSimulation (drawSimulation w) = drawSimulation w.
Proof.
  destruct w as [x [sc gc mi ms ki ks ai asp] r].
  cbn [doc simCanvas]. intros HL.
  unfold drawSimulation.
  cbv [with_doc with_simCanvas g doc raf simCanvas graphCanvas massInput
       massValueSpan springConstantInput springConstantValueSpan
       initialAmplitudeInput initialAmplitudeValueSpan].
  set (d := mkDocument sc gc mi ms ki ks ai asp).
  set (c1 := run (drawSimulation_calls d x) sc).
  destruct (run_dims (drawSimulation_calls d x) sc) as [Hw Hh].
  fold c1 in Hw, Hh.
  rewrite (drawSimulation_calls_ext
             (mkDocument c1 gc mi ms ki ks ai asp) d x x);
    try reflexivity; try assumption.
  unfold c1. rewrite drawSimulation_twice; try reflexivity. exact HL.
Qed.

(** C9.  [drawSimulation] changes nothing but the scene canvas: the
    script's variables, the frame queue, the graph canvas, the controls
    and the labels are as before.  The block is painted with its centre
    at [equilibriumX + position * simScale].  What ends up on the canvas
    is determined by [position] and [initialAmplitude] (given the canvas
    size and the dash pattern it starts with), and in every state the
    page can reach, drawing a second time leaves the whole state, canvas
    included, as the first drawing left it. *)
Theorem drawSimulation_pure :
  forall w : world,
    (g (drawSimulation w) = g w /\
     raf (drawSimulation w) = raf w /\
     doc (drawSimulation w)
     = with_simCanvas (simCanvas (doc (drawSimulation w))) (doc w)) /\
    In (FilledRect "#e74c3c"
          (equilibriumX + position (g w) * simScale - blockWidth / Fin 2)%js
          (groundY (doc w) - blockHeight)%js blockWidth blockHeight)
       (surface (simCanvas (doc (drawSimulation w)))) /\
    (forall w2 : world,
        position (g w2) = position (g w) ->
        initialAmplitude (g w2) = initialAmplitude (g w) ->
        width (simCanvas (doc w2)) = width (simCanvas (doc w)) ->
        height (simCanvas (doc w2)) = height (simCanvas (doc w)) ->
        lineDash (simCanvas (doc w2)) = lineDash (simCanvas (doc w)) ->
        simCanvas (doc (drawSimulation w2))
        = simCanvas (doc (drawSimulation w))) /\
    (reachable w -> drawSimulation (drawSimulation w) = drawSimulation w).
Proof.
  intros w. split; [| split; [| split]].
  - split; [reflexivity |]. split; reflexivity.
  - rewrite simCanvas_drawSimulation.
    apply drawSimulation_block; reflexivity.
  - intros w2 Hp Ha Hw Hh HL. rewrite !simCanvas_drawSimulation.
    rewrite (drawSimulation_run_blank (doc w2)),
            (drawSimulation_run_blank (doc w)) by reflexivity.
    rewrite (drawSimulation_calls_ext (doc w2) (doc w) (g w2) (g w))
      by assumption.
    rewrite Hw, Hh, HL. reflexivity.
  - intros Hr. apply drawSimulation_idempotent. apply reachable_dash.
    exact Hr.
Qed.

Lemma drawSimulation_pure_witness :
  simCanvas (doc (drawSimulation example_running))
  = simCanvas (doc (drawSimulation example_world)) /\
  drawSimulation (drawSimulation example_world) = drawSimulation example_world.
Proof.
  split.
  - apply (proj1 (proj2 (proj2 (drawSimulation_pure example_world)))).
    + reflexivity.
    + reflexivity.
    + reflexivity.
    + reflexivity.
    + reflexivity.
  - apply (proj2 (proj2 (proj2 (drawSimulation_pure example_world)))).
    unfold example_world. apply reach_load. split; reflexivity.
Defined.

(** ** The graph renderer *)

Lemma run_plot_history (d : document) (off : jsnum) (pts : list sample)
      (index : nat) (c : canvas) :
  run (plot_history d off pts index) c
  = with_path (path c ++ plot_path d off pts index) c.
Proof.
  revert index c. induction pts as [| point rest IH]; intros index c.
  - cbn [plot_history plot_path run fold_left]. rewrite app_nil_r.
    destruct c. reflexivity.
  - cbn [plot_history plot_path].
    change (run (?k :: ?ks) c) with (run ks (perform k c)).
    rewrite IH. destruct c as [W H fs ss lw L f ta p s].
    destruct (Nat.eqb index 0); cbv [perform with_path width height fillStyle
      strokeStyle lineWidth lineDash font textAlign path surface];
      rewrite <- app_assoc; reflexivity.
Qed.

Lemma run_cons (k : call) (ks : list call) (c : canvas) :
  run (k :: ks) c = run ks (perform k c).
Proof. reflexivity. Qed.

(** What [drawGraph] paints in purple, and when. *)
Lemma drawGraph_run_marks (d : document) (x : globals) (c : canvas) :
  width c = width (graphCanvas d) -> height c = height (graphCanvas d) ->
  let painted := surface (run (drawGraph_calls d x) c) in
  let top := (graphOriginY d - initialAmplitude x * graphScaleY)%js in
  let pX := periodStartX d x in
  let pEnd := (periodStartX d x + period x * graphScaleX)%js in
  ((time x >= period x)%js = true ->
   In (StrokedPath "purple" (Fin 2) [Fin 2; Fin 4]
         [MoveTo pX (top - Fin 10)%js; LineTo pEnd (top - Fin 10)%js])
      painted /\
   In (StrokedPath "purple" (Fin 2) [Fin 2; Fin 4]
         [MoveTo pX (top - Fin 10)%js;
          LineTo (pX + Fin 5)%js (top - Fin 15)%js;
          MoveTo pX (top - Fin 10)%js;
          LineTo (pX + Fin 5)%js (top - Fin 5)%js])
      painted /\
   In (StrokedPath "purple" (Fin 2) [Fin 2; Fin 4]
         [MoveTo pEnd (top - Fin 10)%js;
          LineTo (pEnd - Fin 5)%js (top - Fin 15)%js;
          MoveTo pEnd (top - Fin 10)%js;
          LineTo (pEnd - Fin 5)%js (top - Fin 5)%js])
      painted) /\
  ((time x >= period x)%js = false ->
   forall p : prim, In p painted -> prim_style p <> "purple"%string) /\
  In (StrokedPath "rgba(0, 128, 0, 0.5)" (Fin 1) [Fin 3; Fin 3]
        [MoveTo graphOriginX top; LineTo (of_N (width c)) top])
     painted.
Proof.
  intros Hw Hh painted top pX pEnd. subst painted top pX pEnd.
  unfold drawGraph_calls. cbv zeta. rewrite <- Hw, <- Hh.
  rewrite !run_app, run_plot_history, (run_cons (clearRect _ _ _ _)).
  destruct c as [W H fs ss lw L f ta p s]. cbn [width height].
  rewrite clearRect_full_mk.
  destruct (time x >= period x)%js.
  - unfold period_mark_calls. canvas_compute. cbn [In].
    split; [intros _ | split; [discriminate |]].
    + split; [in_list | split; in_list].
    + in_list.
  - canvas_compute. cbn [In].
    split; [discriminate | split].
    + intros _ q Hq.
      repeat (destruct Hq as [<- | Hq]; [cbn [prim_style]; discriminate |]).
      contradiction.
    + in_list.
Qed.

(** Everything [drawGraph] leaves on the canvas. *)
Lemma drawGraph_run_surface (d : document) (x : globals) (c : canvas) :
  width c = width (graphCanvas d) -> height c = height (graphCanvas d) ->
  surface (run (drawGraph_calls d x) c)
  = graph_base_surface d x (lineDash c)
    ++ (if (time x >= period x)%js then period_mark_surface d x else []).
Proof.
  intros Hw Hh. unfold drawGraph_calls, graph_base_surface. cbv zeta.
  rewrite <- Hw, <- Hh.
  rewrite !run_app, run_plot_history, (run_cons (clearRect _ _ _ _)).
  destruct c as [W H fs ss lw L f ta p s]. cbn [width height lineDash].
  rewrite clearRect_full_mk.
  destruct (time x >= period x)%js.
  - unfold period_mark_calls, period_mark_surface. canvas_compute.
    reflexivity.
  - canvas_compute. reflexivity.
Qed.

(** The remainder [time % period] once a period [T] has elapsed: it lies
    in [0, T) and [time] less the remainder is a whole number of
    periods. *)
Lemma period_remainder (t T : R) :
  0 < T -> T <= t ->
  exists (n : Z) (r : R),
    (1 <= n)%Z /\ jmod (Fin t) (Fin T) = Fin r /\
    0 <= r < T /\ t - r = IZR n * T.
Proof.
  intros HT Ht.
  assert (Hq : t / T * T = t) by (field; lra).
  assert (Hq1 : 1 <= t / T) by nra.
  destruct (base_Int_part (t / T)) as [Hlo Hhi].
  exists (Int_part (t / T)), (t - T * IZR (Int_part (t / T))).
  split; [| split; [| split]].
  - assert (H0 : (0 < Int_part (t / T))%Z) by (apply lt_IZR; lra). lia.
  - unfold jmod. destruct (Req_dec_T T 0) as [E | _]; [lra |].
    unfold Rtrunc. destruct (Rle_dec 0 (t / T)) as [_ | Hn]; [| lra].
    reflexivity.
  - split; nra.
  - ring.
Qed.

(** C8.  [drawGraph] paints the period annotation exactly when
    [time >= period] holds.  What it leaves on the canvas is the axes,
    the labels, the amplitude lines, the curve and the marker, followed,
    when [time >= period], by the annotation and by nothing otherwise:
    a dashed purple line from [periodStartX] to
    [periodStartX + period * graphScaleX], with an arrow head at each
    end, 10 pixels above the upper amplitude line, where [periodStartX]
    is [time - time % period] brought to screen coordinates.  For a
    finite period [T > 0] and [time >= T] the remainder [time % period]
    lies in [0, T) and [time] less the remainder is a whole number
    [n >= 1] of periods. *)
Theorem period_mark_iff_period_elapsed :
  forall w : world,
    let x := g w in
    let d := doc w in
    let painted := surface (graphCanvas (doc (drawGraph w))) in
    let top := (graphOriginY d - initialAmplitude x * graphScaleY)%js in
    let pX :=
      (graphOriginX + (time x - jmod (time x) (period x)) * graphScaleX
       - currentGraphXOffset d x)%js in
    let pEnd := (pX + period x * graphScaleX)%js in
    painted
    = graph_base_surface d x (lineDash (graphCanvas d))
      ++ (if (time x >= period x)%js then period_mark_surface d x else []) /\
    ((time x >= period x)%js = true ->
     In (StrokedPath "purple" (Fin 2) [Fin 2; Fin 4]
           [MoveTo pX (top - Fin 10)%js; LineTo pEnd (top - Fin 10)%js])
        painted /\
     In (StrokedPath "purple" (Fin 2) [Fin 2; Fin 4]
           [MoveTo pX (top - Fin 10)%js;
            LineTo (pX + Fin 5)%js (top - Fin 15)%js;
            MoveTo pX (top - Fin 10)%js;
            LineTo (pX + Fin 5)%js (top - Fin 5)%js])
        painted /\
     In (StrokedPath "purple" (Fin 2) [Fin 2; Fin 4]
           [MoveTo pEnd (top - Fin 10)%js;
            LineTo (pEnd - Fin 5)%js (top - Fin 15)%js;
            MoveTo pEnd (top - Fin 10)%js;
            LineTo (pEnd - Fin 5)%js (top - Fin 5)%js])
        painted) /\
    ((time x >= period x)%js = false ->
     painted = graph_base_surface d x (lineDash (graphCanvas d)) /\
     forall p : prim, In p painted -> prim_style p <> "purple"%string) /\
    In (StrokedPath "rgba(0, 128, 0, 0.5)" (Fin 1) [Fin 3; Fin 3]
          [MoveTo graphOriginX top;
           LineTo (of_N (width (graphCanvas d))) top])
       painted /\
    (forall t T : R,
        time x = Fin t -> period x = Fin T -> 0 < T -> T <= t ->
        (time x >= period x)%js = true /\
        exists (n : Z) (r : R),
          (1 <= n)%Z /\
          jmod (time x) (period x) = Fin r /\
          0 <= r < T /\ t - r = IZR n * T).
Proof.
  intros w x d painted top pX pEnd.
  destruct (drawGraph_run_marks d x (graphCanvas d) eq_refl eq_refl)
    as (Hyes & Hno & Hline).
  assert (Hs := drawGraph_run_surface d x (graphCanvas d) eq_refl eq_refl).
  split; [exact Hs |]. split; [exact Hyes |]. split.
  - intros Hf. split; [| exact (Hno Hf)].
    unfold painted. change (graphCanvas (doc (drawGraph w)))
      with (run (drawGraph_calls d x) (graphCanvas d)).
    rewrite Hs, Hf. apply app_nil_r.
  - split; [exact Hline |].
    intros t T Ht HT HTpos Hle. rewrite Ht, HT. split.
    + apply jge_fin. exact Hle.
    + apply period_remainder; assumption.
Qed.

Lemma example_period :
  period (g late_world) = Fin (2 * PI / sqrt (10 / 1)) /\
  0 < 2 * PI / sqrt (10 / 1) <= 9.
Proof.
  split.
  - change ((Fin 2 * Math_PI / jsqrt (Fin 10 / Fin 1))%js
            = Fin (2 * PI / sqrt (10 / 1))).
    rewrite omega_fin by lra. apply period_fin; lra.
  - assert (Hs : 1 <= sqrt (10 / 1)).
    { rewrite <- sqrt_1 at 1. apply sqrt_le_1_alt. lra. }
    assert (Hpi := PI_4). assert (Hpi0 := PI_RGT_0).
    split.
    + apply Rdiv_lt_0_compat; lra.
    + apply (Rmult_le_reg_r (sqrt (10 / 1))); [lra |].
      unfold Rdiv. rewrite Rmult_assoc, Rinv_l by lra. nra.
Qed.

Lemma period_mark_iff_period_elapsed_witness :
  In (StrokedPath "purple" (Fin 2) [Fin 2; Fin 4]
        [MoveTo
           (graphOriginX
            + (time (g late_world)
               - jmod (time (g late_world)) (period (g late_world)))
              * graphScaleX
            - currentGraphXOffset (doc late_world) (g late_world))%js
           (graphOriginY (doc late_world)
            - initialAmplitude (g late_world) * graphScaleY - Fin 10)%js;
         LineTo
           (graphOriginX
            + (time (g late_world)
               - jmod (time (g late_world)) (period (g late_world)))
              * graphScaleX
            - currentGraphXOffset (doc late_world) (g late_world)
            + period (g late_world) * graphScaleX)%js
           (graphOriginY (doc late_world)
            - initialAmplitude (g late_world) * graphScaleY - Fin 10)%js])
     (surface (graphCanvas (doc (drawGraph late_world)))) /\
  (exists (n : Z) (r : R),
      (1 <= n)%Z /\
      jmod (time (g late_world)) (period (g late_world)) = Fin r /\
      0 <= r < 2 * PI / sqrt (10 / 1) /\
      9 - r = IZR n * (2 * PI / sqrt (10 / 1))) /\
  surface (graphCanvas (doc (drawGraph example_world)))
  = graph_base_surface (doc example_world) (g example_world)
                       (lineDash (graphCanvas (doc example_world))).
Proof.
  destruct example_period as [HT [Hpos Hle]].
  destruct (proj2 (proj2 (proj2 (proj2
              (period_mark_iff_period_elapsed late_world))))
              9 (2 * PI / sqrt (10 / 1)) eq_refl HT Hpos Hle)
    as [Hge Hn].
  split; [| split].
  - apply (proj1 (proj2 (period_mark_iff_period_elapsed late_world))).
    exact Hge.
  - exact Hn.
  - apply (proj1 (proj2 (proj2
             (period_mark_iff_period_elapsed example_world)))).
    change (period (g example_world)) with (period (g late_world)).
    rewrite HT. change (time (g example_world)) with (Fin 0).
    destruct (Fin 0 >= Fin (2 * PI / sqrt (10 / 1)))%js eqn:E;
      [| reflexivity].
    apply jge_fin in E. lra.
Defined.

(** * Further properties of the script *)

(** ** The run loop *)

Lemma resetSimulation_next_handle (w : world) :
  next_handle (raf (resetSimulation w)) = next_handle (raf w).
Proof.
  rewrite resetSimulation_raf.
  destruct (animationFrameId (g w)) as [id |]; [| reflexivity].
  destruct (truthy_handle (Some id)); reflexivity.
Qed.

(** The handle kept in [animationFrameId] was handed out by the browser:
    it is at least 1 and below the next handle. *)
Lemma reachable_handle_issued (w : world) :
  reachable w ->
  forall h : nat,
    animationFrameId (g w) = Some h -> (1 <= h < next_handle (raf w))%nat.
Proof.
  induction 1 as [d _ | w e Hr IH].
  - intros h Hh. discriminate Hh.
  - destruct (reachable_inv w Hr) as [Hn Hq].
    destruct e as [c v | now | | ts]; cbn [handle].
    + intros h Hh. unfold updateParameters.
      rewrite resetSimulation_next_handle. apply IH. exact Hh.
    + unfold startSimulation. destruct (simulationActive (g w)).
      * exact IH.
      * intros h Hh. cbn in Hh. injection Hh as <-. cbn. lia.
    + intros h Hh. rewrite resetSimulation_next_handle. apply IH. exact Hh.
    + destruct (simulationActive (g w)) eqn:Hact.
      * destruct Hq as [h0 [_ Hp]].
        destruct (run_frame_active ts (S h0) w Hact Hp) as (Hg & Hf & _).
        intros h Hh. rewrite Hg in Hh. rewrite Hf.
        cbn in Hh. injection Hh as <-. cbn. lia.
      * rewrite run_frame_idle by assumption. exact IH.
Qed.

(** X1.  In every state the page can reach: while the simulation is
    active exactly one callback waits for the next frame, and it is the
    one [animationFrameId] names; while it is idle none waits; and a
    handle kept in [animationFrameId], stale or not, is one the browser
    has handed out (so no later request can collide with it). *)
Theorem frame_queue_invariant :
  forall w : world,
    reachable w ->
    (simulationActive (g w) = true ->
     exists h : nat,
       animationFrameId (g w) = Some h /\ pending (raf w) = [h]) /\
    (simulationActive (g w) = false -> pending (raf w) = []) /\
    (forall h : nat,
        animationFrameId (g w) = Some h ->
        (1 <= h < next_handle (raf w))%nat).
Proof.
  intros w Hr. destruct (reachable_inv w Hr) as [_ Hq].
  split; [| split].
  - intros Hact. rewrite Hact in Hq. destruct Hq as [h [Hid Hp]].
    exists (S h). split; assumption.
  - intros Hact. rewrite Hact in Hq. exact Hq.
  - apply reachable_handle_issued. exact Hr.
Qed.

Lemma example_running_reachable : reachable example_running.
Proof.
  unfold example_running, example_world.
  apply reach_step. apply reach_load. split; reflexivity.
Qed.

Lemma frame_queue_invariant_witness :
  (exists h : nat,
      animationFrameId (g example_running) = Some h /\
      pending (raf example_running) = [h]) /\
  pending (raf (handle ClickReset example_running)) = [].
Proof.
  split.
  - apply (proj1 (frame_queue_invariant example_running
                    example_running_reachable)).
    reflexivity.
  - apply (proj1 (proj2 (frame_queue_invariant
                           (handle ClickReset example_running)
                           (reach_step _ _ example_running_reachable)))).
    reflexivity.
Defined.

Lemma run_frame_stays_active (ts : jsnum) (w : world) :
  reachable w -> simulationActive (g w) = true ->
  simulationActive (g (run_frame ts w)) = true.
Proof.
  intros Hr Hact. destruct (reachable_inv w Hr) as [_ Hq].
  rewrite Hact in Hq. destruct Hq as [h [_ Hp]].
  destruct (run_frame_active ts (S h) w Hact Hp) as (Hg & _).
  rewrite Hg. exact Hact.
Qed.

Lemma reachable_idle_rest (w : world) :
  reachable w ->
  simulationActive (g w) = false ->
  time (g w) = Fin 0 /\
  position (g w) = initialAmplitude (g w) /\
  velocity (g w) = Fin 0 /\
  graphHistory (g w) = [].
Proof.
  induction 1 as [d _ | w e Hr IH].
  - intros _. repeat split.
  - destruct e as [c v | now | | ts]; cbn [handle]; intros Hidle.
    + repeat split.
    + unfold startSimulation in *.
      destruct (simulationActive (g w)) eqn:Hact.
      * rewrite Hact in Hidle. discriminate Hidle.
      * discriminate Hidle.
    + repeat split.
    + destruct (simulationActive (g w)) eqn:Hact.
      * rewrite (run_frame_stays_active ts w Hr Hact) in Hidle.
        discriminate Hidle.
      * destruct (reachable_inv w Hr) as [_ Hq]. rewrite Hact in Hq.
        rewrite run_frame_idle by assumption. apply IH. reflexivity.
Qed.

(** X2.  The script has no pause: in every reachable state an idle
    simulation is at rest, with [time] 0, [position] at the initial
    amplitude, [velocity] 0, an empty [graphHistory] and no callback
    waiting. *)
Theorem idle_is_at_rest :
  forall w : world,
    reachable w ->
    simulationActive (g w) = false ->
    time (g w) = Fin 0 /\
    position (g w) = initialAmplitude (g w) /\
    velocity (g w) = Fin 0 /\
    graphHistory (g w) = [] /\
    pending (raf w) = [].
Proof.
  intros w Hr Hidle.
  destruct (reachable_idle_rest w Hr Hidle) as (Ht & Hp & Hv & Hh).
  destruct (reachable_inv w Hr) as [_ Hq]. rewrite Hidle in Hq.
  split; [exact Ht |]. split; [exact Hp |]. split; [exact Hv |].
  split; [exact Hh | exact Hq].
Qed.

Lemma idle_is_at_rest_witness :
  time (g (handle ClickReset example_running)) = Fin 0 /\
  position (g (handle ClickReset example_running))
  = initialAmplitude (g (handle ClickReset example_running)) /\
  velocity (g (handle ClickReset example_running)) = Fin 0 /\
  graphHistory (g (handle ClickReset example_running)) = [] /\
  pending (raf (handle ClickReset example_running)) = [].
Proof.
  apply (idle_is_at_rest (handle ClickReset example_running)).
  - apply reach_step. exact example_running_reachable.
  - reflexivity.
Defined.

(** X3.  While the simulation is idle, rendering frames changes nothing
    at all: the variables, the page and the frame queue stay as they
    are, whatever the time stamps. *)
Theorem idle_frames_change_nothing :
  forall (w : world) (stamps : list jsnum),
    reachable w ->
    simulationActive (g w) = false ->
    events (map Frame stamps) w = w.
Proof.
  intros w stamps Hr Hidle.
  destruct (reachable_inv w Hr) as [_ Hq]. rewrite Hidle in Hq.
  induction stamps as [| ts stamps IH].
  - reflexivity.
  - cbn [map]. unfold events in *. cbn [fold_left handle].
    rewrite run_frame_idle by assumption. exact IH.
Qed.

Lemma idle_frames_change_nothing_witness :
  events (map Frame [Fin 16; Fin 33; NaN]) example_world = example_world.
Proof.
  apply idle_frames_change_nothing.
  - unfold example_world. apply reach_load. split; reflexivity.
  - reflexivity.
Defined.

(** X4.  A second click on the start button is ignored whatever the
    state of the first: starting twice, at any two clock readings,
    gives the state the first start gave. *)
Theorem startSimulation_twice :
  forall (now1 now2 : jsnum) (w : world),
    startSimulation now2 (startSimulation now1 w) = startSimulation now1 w.
Proof.
  intros now1 now2 w. unfold startSimulation at 2 3.
  destruct (simulationActive (g w)) eqn:Hact.
  - unfold startSimulation. rewrite Hact. reflexivity.
  - cbn [requestAnimationFrame]. cbv beta iota.
    unfold startSimulation. reflexivity.
Qed.

(** ** Simulated time against the wall clock *)

(** A tick with a usable [lastTime]: what it does to the clock fields. *)
Lemma run_frame_clock (ts prev : jsnum) (w : world) :
  reachable w ->
  simulationActive (g w) = true ->
  lastTime (g w) = Some prev -> truthy prev = true ->
  time (g (run_frame ts w)) = (time (g w) + (ts - prev) / Fin 1000)%js /\
  lastTime (g (run_frame ts w)) = Some ts /\
  simulationActive (g (run_frame ts w)) = true.
Proof.
  intros Hr Hact Hl Hprev.
  destruct (reachable_inv w Hr) as [_ Hq]. rewrite Hact in Hq.
  destruct Hq as [h [_ Hp]].
  destruct (run_frame_active ts (S h) w Hact Hp) as (Hg & _).
  rewrite Hg.
  cbn [with_animationFrameId updatePhysics with_lastTime time lastTime
       simulationActive].
  rewrite (deltaTime_since ts prev (g w) Hl Hprev).
  split; [reflexivity |]. split; [reflexivity | exact Hact].
Qed.

Lemma frames_sum_deltas (stamps : list jsnum) :
  forall (w : world) (prev : jsnum),
    reachable w ->
    simulationActive (g w) = true ->
    lastTime (g w) = Some prev -> truthy prev = true ->
    Forall (fun ts : jsnum => truthy ts = true) stamps ->
    time (g (events (map Frame stamps) w))
    = fold_left jadd (frame_deltas prev stamps) (time (g w)).
Proof.
  induction stamps as [| ts rest IH]; intros w prev Hr Hact Hl Hprev Hall.
  - reflexivity.
  - inversion Hall as [| a l Hts Hrest]; subst.
    destruct (run_frame_clock ts prev w Hr Hact Hl Hprev)
      as (Ht' & Hl' & Hact').
    change (time (g (events (map Frame rest) (run_frame ts w)))
            = fold_left jadd (frame_deltas ts rest)
                        (time (g w) + (ts - prev) / Fin 1000)%js).
    rewrite (IH (run_frame ts w) ts); try assumption.
    + rewrite Ht'. reflexivity.
    + apply (reach_step w (Frame ts)). exact Hr.
Qed.

(** X5.  Simulated time is the running sum of the frame deltas: after a
    click on start at the clock reading [now] and any run of frames,
    [time] is 0 plus, in frame order and in the script's own arithmetic,
    each frame's time stamp less the stamp before it (for the first
    frame, less [now]) over 1000.  Every frame is counted once and none
    is skipped, as long as the readings are truthy (not 0, not NaN), a
    falsy one being taken for a missing one. *)
Theorem time_is_sum_of_frame_deltas :
  forall (w : world) (now : jsnum) (stamps : list jsnum),
    reachable w ->
    simulationActive (g w) = false ->
    truthy now = true ->
    Forall (fun ts : jsnum => truthy ts = true) stamps ->
    time (g (events (ClickStart now :: map Frame stamps) w))
    = fold_left jadd (frame_deltas now stamps) (Fin 0).
Proof.
  intros w now stamps Hr Hidle Hnow Hall.
  destruct (reachable_idle_rest w Hr Hidle) as (Ht & _).
  change (time (g (events (map Frame stamps) (startSimulation now w)))
          = fold_left jadd (frame_deltas now stamps) (Fin 0)).
  rewrite (frames_sum_deltas stamps (startSimulation now w) now);
    try assumption.
  - unfold startSimulation. rewrite Hidle.
    cbn [requestAnimationFrame]. cbv beta iota.
    cbn [g with_animationFrameId with_lastTime with_simulationActive time].
    rewrite Ht. reflexivity.
  - apply (reach_step w (ClickStart now)). exact Hr.
  - unfold startSimulation. rewrite Hidle. reflexivity.
  - unfold startSimulation. rewrite Hidle. reflexivity.
Qed.

Lemma time_is_sum_of_frame_deltas_witness :
  time (g (events (ClickStart (Fin 1000)
                     :: map Frame [Fin 1016; Fin 1033; Fin 21016])
                  example_world))
  = (Fin 0 + (Fin 1016 - Fin 1000) / Fin 1000
     + (Fin 1033 - Fin 1016) / Fin 1000
     + (Fin 21016 - Fin 1033) / Fin 1000)%js.
Proof.
  apply (time_is_sum_of_frame_deltas example_world (Fin 1000)
           [Fin 1016; Fin 1033; Fin 21016]).
  - unfold example_world. apply reach_load. split; reflexivity.
  - reflexivity.
  - apply truthy_fin. lra.
  - repeat constructor; apply truthy_fin; lra.
Defined.

(** ** The controls and the variables *)

Lemma animationLoop_doc_cases (ts : jsnum) (w : world) :
  doc (animationLoop ts w) = doc w \/
  doc (animationLoop ts w)
  = doc (drawGraph
           (drawSimulation
              (with_g (updatePhysics (doc w) (deltaTime_of (g w) ts)
                         (with_lastTime (Some ts) (g w)))
                      (with_g (with_lastTime (Some ts) (g w)) w)))).
Proof.
  unfold animationLoop. cbv zeta.
  change (simulationActive (g (with_g (with_lastTime (Some ts) (g w)) w)))
    with (simulationActive (g w)).
  destruct (simulationActive (g w)).
  - right. cbn [requestAnimationFrame]. cbv beta iota. reflexivity.
  - left. reflexivity.
Qed.

Lemma animationLoop_controls (ts : jsnum) (w : world) :
  controls_of (doc (animationLoop ts w)) = controls_of (doc w).
Proof.
  destruct (animationLoop_doc_cases ts w) as [E | E]; rewrite E; reflexivity.
Qed.

Lemma run_frame_controls (ts : jsnum) (w : world) :
  controls_of (doc (run_frame ts w)) = controls_of (doc w).
Proof.
  unfold run_frame.
  change (controls_of (doc w))
    with (controls_of
            (doc (with_raf (mkFrames [] (next_handle (raf w))) w))).
  generalize (with_raf (mkFrames [] (next_handle (raf w))) w).
  induction (pending (raf w)) as [| h hs IH]; intros u.
  - reflexivity.
  - cbn [fold_left]. rewrite IH. apply animationLoop_controls.
Qed.

Lemma run_frame_parameters (ts : jsnum) (w : world) :
  reachable w ->
  same_parameters (g w) (g (run_frame ts w)).
Proof.
  intros Hr. destruct (reachable_inv w Hr) as [_ Hq].
  destruct (simulationActive (g w)) eqn:Hact.
  - destruct Hq as [h [_ Hp]].
    destruct (run_frame_active ts (S h) w Hact Hp) as (Hg & _).
    rewrite Hg. repeat split.
  - rewrite run_frame_idle by assumption. repeat split.
Qed.

Lemma reachable_mirror (w : world) :
  reachable w ->
  controls_of (doc w)
  = (mass (g w), springConstant (g w), initialAmplitude (g w),
     (Some (toFixed (mass (g w)) 1),
      Some (toFixed (springConstant (g w)) 0),
      Some (toFixed (initialAmplitude (g w)) 1))).
Proof.
  induction 1 as [d _ | w e Hr IH].
  - reflexivity.
  - destruct e as [c v | now | | ts]; cbn [handle].
    + reflexivity.
    + unfold startSimulation. destruct (simulationActive (g w)); exact IH.
    + exact IH.
    + rewrite run_frame_controls, IH.
      destruct (run_frame_parameters ts w Hr) as (Hm & Hk & Ha).
      rewrite <- Hm, <- Hk, <- Ha. reflexivity.
Qed.

(** X6.  In every reachable state the script's parameters are the values
    the three controls hold and the labels show them, the mass and the
    amplitude with one decimal and the spring constant with none:
    nothing changes a parameter but a move of a control. *)
Theorem variables_mirror_controls :
  forall w : world,
    reachable w ->
    (mass (g w) = massInput (doc w) /\
     springConstant (g w) = springConstantInput (doc w) /\
     initialAmplitude (g w) = initialAmplitudeInput (doc w)) /\
    massValueSpan (doc w) = Some (toFixed (massInput (doc w)) 1) /\
    springConstantValueSpan (doc w)
    = Some (toFixed (springConstantInput (doc w)) 0) /\
    initialAmplitudeValueSpan (doc w)
    = Some (toFixed (initialAmplitudeInput (doc w)) 1).
Proof.
  intros w Hr. assert (H := reachable_mirror w Hr).
  unfold controls_of in H.
  injection H as Hm Hk Ha Hlm Hlk Hla.
  rewrite Hlm, Hlk, Hla, Hm, Hk, Ha. repeat split.
Qed.

Lemma variables_mirror_controls_witness :
  mass (g (handle (Frame (Fin 1016)) example_running))
  = massInput (doc (handle (Frame (Fin 1016)) example_running)) /\
  massValueSpan (doc (handle (Frame (Fin 1016)) example_running))
  = Some (toFixed
            (massInput (doc (handle (Frame (Fin 1016)) example_running))) 1).
Proof.
  destruct (variables_mirror_controls
              (handle (Frame (Fin 1016)) example_running)
              (reach_step _ _ example_running_reachable))
    as ((Hm & _) & Hl & _).
  split; assumption.
Defined.

(** X7.  The period does not depend on the amplitude: in every reachable
    state, moving the amplitude control to any value leaves
    [angularFrequency] and [period] as they were, while the amplitude
    and the rest position take the new value. *)
Theorem amplitude_leaves_period :
  forall (w : world) (v : jsnum),
    reachable w ->
    let w' := handle (Input AmplitudeControl v) w in
    angularFrequency (g w') = angularFrequency (g w) /\
    period (g w') = period (g w) /\
    initialAmplitude (g w') = v /\
    position (g w') = v.
Proof.
  intros w v Hr w'. subst w'.
  assert (Hmir := reachable_mirror w Hr). unfold controls_of in Hmir.
  injection Hmir as Hm Hk _ _ _ _.
  destruct (reachable_consistent w Hr) as [Hom HT].
  assert (E : angularFrequency (g (handle (Input AmplitudeControl v) w))
              = angularFrequency (g w)).
  { change (jsqrt (springConstantInput (doc w) / massInput (doc w))%js
            = angularFrequency (g w)).
    rewrite Hm, Hk. symmetry. exact Hom. }
  split; [exact E |]. split.
  - change ((Fin 2 * Math_PI
             / angularFrequency (g (handle (Input AmplitudeControl v) w)))%js
            = period (g w)).
    rewrite E. symmetry. exact HT.
  - split; reflexivity.
Qed.

Lemma amplitude_leaves_period_witness :
  angularFrequency (g (handle (Input AmplitudeControl (Fin 2)) example_running))
  = angularFrequency (g example_running) /\
  period (g (handle (Input AmplitudeControl (Fin 2)) example_running))
  = period (g example_running) /\
  initialAmplitude
    (g (handle (Input AmplitudeControl (Fin 2)) example_running)) = Fin 2 /\
  position (g (handle (Input AmplitudeControl (Fin 2)) example_running))
  = Fin 2.
Proof.
  apply (amplitude_leaves_period example_running (Fin 2)).
  exact example_running_reachable.
Defined.

(** ** The motion *)





(** ** The graph history, continued *)

Lemma jge_later (t t' : R) (a : jsnum) :
  (Fin t >= a)%js = true -> t <= t' -> (Fin t' >= a)%js = true.
Proof.
  destruct a as [r | | |]; cbn [jge]; intros H Hle; try discriminate;
    try reflexivity.
  apply jge_fin. apply jge_fin in H. lra.
Qed.

Lemma ordered_snoc (h : list sample) (s : sample) :
  ordered h -> Forall (fun a : sample => no_later a s) h -> ordered (h ++ [s]).
Proof.
  induction h as [| a h IH]; intros Ho Hall.
  - cbn. split; [constructor | exact I].
  - destruct Ho as [Ha Ho]. inversion Hall as [| a0 l Has Hrest]; subst.
    cbn [app ordered]. split.
    + apply Forall_app. split; [exact Ha | constructor; [exact Has | constructor]].
    + apply IH; assumption.
Qed.

Lemma ordered_tl (h : list sample) : ordered h -> ordered (tl h).
Proof. destruct h as [| a h]; [trivial | intros [_ Ho]; exact Ho]. Qed.

Lemma Forall_tl (P : sample -> Prop) (h : list sample) :
  Forall P h -> Forall P (tl h).
Proof.
  destruct h as [| a h]; [trivial |].
  intros H. inversion H; assumption.
Qed.

Lemma updatePhysics_order (d : document) (dt : jsnum) (x : globals) (t : R) :
  time x = Fin t -> forward dt -> in_time_order x ->
  in_time_order (updatePhysics d dt x) /\
  exists t' : R, time (updatePhysics d dt x) = Fin t'.
Proof.
  intros Ht Hdt [Ho Hpast].
  destruct dt as [r | | |]; try contradiction. cbn [forward] in Hdt.
  assert (Htime : time (updatePhysics d (Fin r) x) = Fin (t + r)).
  { cbn [updatePhysics time]. rewrite Ht. reflexivity. }
  split; [| exists (t + r); exact Htime].
  unfold in_time_order. rewrite Htime, updatePhysics_history. cbv zeta.
  rewrite Ht. cbn [jadd].
  set (new := mkSample (Fin (t + r))
                (initialAmplitude x * jcos (angularFrequency x * Fin (t + r)))%js).
  assert (Hall : Forall (fun s : sample => (Fin (t + r) >= s_time s)%js = true)
                        (graphHistory x ++ [new])).
  { apply Forall_app. split.
    - rewrite Ht in Hpast. revert Hpast. apply Forall_impl.
      intros a Ha. apply (jge_later t); [exact Ha | lra].
    - constructor; [| constructor]. cbn [new s_time]. apply jge_fin. lra. }
  assert (Hord : ordered (graphHistory x ++ [new])).
  { apply ordered_snoc; [exact Ho |].
    apply Forall_app in Hall. destruct Hall as [Hall _]. exact Hall. }
  destruct (_ > _)%js.
  - split; [apply ordered_tl; exact Hord | apply Forall_tl; exact Hall].
  - split; assumption.
Qed.

(** X10.  The history stays in time order: if it is in time order and
    holds no sample later than [time], then after any run of physics
    steps whose frame deltas are finite and not negative it still is,
    evictions included. *)
Theorem history_stays_in_time_order :
  forall (d : document) (dts : list jsnum) (x : globals) (t : R),
    time x = Fin t ->
    Forall forward dts ->
    in_time_order x ->
    in_time_order (physics_run d dts x).
Proof.
  intros d dts. induction dts as [| dt dts IH]; intros x t Ht Hf Ho.
  - exact Ho.
  - inversion Hf as [| a l Hdt Hrest]; subst.
    destruct (updatePhysics_order d dt x t Ht Hdt Ho) as [Ho' [t' Ht']].
    change (physics_run d (dt :: dts) x)
      with (physics_run d dts (updatePhysics d dt x)).
    apply (IH _ t'); assumption.
Qed.

Lemma history_stays_in_time_order_witness :
  in_time_order
    (physics_run example_document [Fin 0; Fin 0.016; Fin 20] example_globals).
Proof.
  apply (history_stays_in_time_order example_document _ example_globals 0).
  - reflexivity.
  - repeat constructor; cbn [forward]; lra.
  - split; [exact I | constructor].
Defined.

(** X11.  After a physics step the newest sample of the history, if
    there is one, is the current [time] and [position]; and there is one
    whenever the plot is at least 1.5 pixels wide. *)
Theorem newest_sample_is_current :
  forall (d : document) (dt : jsnum) (x : globals),
    let x' := updatePhysics d dt x in
    (graphHistory x' = [] \/
     exists older : list sample,
       graphHistory x' = older ++ [mkSample (time x') (position x')]) /\
    (50 * 0.03 <= IZR (Z.of_N (width (graphCanvas d))) - 50 ->
     graphHistory x' <> []).
Proof.
  intros d dt x x'. subst x'. rewrite updatePhysics_history. cbv zeta.
  change (time (updatePhysics d dt x)) with (time x + dt)%js.
  change (position (updatePhysics d dt x))
    with (initialAmplitude x * jcos (angularFrequency x * (time x + dt)))%js.
  set (new := mkSample (time x + dt)%js
                (initialAmplitude x * jcos (angularFrequency x * (time x + dt)))%js).
  destruct (_ > _)%js eqn:Htest.
  - destruct (graphHistory x) as [| s0 h] eqn:Hh; cbn [app tl].
    + split; [left; reflexivity |].
      intros Hwide. exfalso.
      apply jgt_fin in Htest. cbn [List.length INR] in Htest. lra.
    + split.
      * right. exists h. reflexivity.
      * intros _ E. destruct h; discriminate E.
  - split.
    + right. exists (graphHistory x). reflexivity.
    + intros _ E. destruct (graphHistory x); discriminate E.
Qed.

Lemma newest_sample_is_current_witness :
  graphHistory (updatePhysics example_document (Fin 0.016) example_globals)
  <> [].
Proof.
  apply (proj2 (newest_sample_is_current example_document (Fin 0.016)
                  example_globals)).
  cbn. lra.
Defined.

(** ** The canvases *)

Lemma drawSimulation_sizes (w : world) :
  canvas_sizes (doc (drawSimulation w)) = canvas_sizes (doc w).
Proof.
  destruct (run_dims (drawSimulation_calls (doc w) (g w)) (simCanvas (doc w)))
    as [Hw Hh].
  unfold canvas_sizes.
  change (simCanvas (doc (drawSimulation w)))
    with (run (drawSimulation_calls (doc w) (g w)) (simCanvas (doc w))).
  change (graphCanvas (doc (drawSimulation w))) with (graphCanvas (doc w)).
  rewrite Hw, Hh. reflexivity.
Qed.

Lemma drawGraph_sizes (w : world) :
  canvas_sizes (doc (drawGraph w)) = canvas_sizes (doc w).
Proof.
  destruct (run_dims (drawGraph_calls (doc w) (g w)) (graphCanvas (doc w)))
    as [Hw Hh].
  unfold canvas_sizes.
  change (graphCanvas (doc (drawGraph w)))
    with (run (drawGraph_calls (doc w) (g w)) (graphCanvas (doc w))).
  change (simCanvas (doc (drawGraph w))) with (simCanvas (doc w)).
  rewrite Hw, Hh. reflexivity.
Qed.

Lemma resetSimulation_sizes (w : world) :
  canvas_sizes (doc (resetSimulation w)) = canvas_sizes (doc w).
Proof.
  unfold resetSimulation. cbv zeta.
  rewrite drawGraph_sizes, drawSimulation_sizes. reflexivity.
Qed.

Lemma animationLoop_sizes (ts : jsnum) (w : world) :
  canvas_sizes (doc (animationLoop ts w)) = canvas_sizes (doc w).
Proof.
  destruct (animationLoop_doc_cases ts w) as [E | E]; rewrite E.
  - reflexivity.
  - rewrite drawGraph_sizes, drawSimulation_sizes. reflexivity.
Qed.

Lemma run_frame_sizes (ts : jsnum) (w : world) :
  canvas_sizes (doc (run_frame ts w)) = canvas_sizes (doc w).
Proof.
  unfold run_frame.
  change (canvas_sizes (doc w))
    with (canvas_sizes
            (doc (with_raf (mkFrames [] (next_handle (raf w))) w))).
  generalize (with_raf (mkFrames [] (next_handle (raf w))) w).
  induction (pending (raf w)) as [| h hs IH]; intros u.
  - reflexivity.
  - cbn [fold_left]. rewrite IH. apply animationLoop_sizes.
Qed.

Lemma handle_sizes (e : event) (w : world) :
  canvas_sizes (doc (handle e w)) = canvas_sizes (doc w).
Proof.
  destruct e as [c v | now | | ts]; cbn [handle].
  - unfold updateParameters. rewrite resetSimulation_sizes.
    destruct c; reflexivity.
  - unfold startSimulation. destruct (simulationActive (g w)); reflexivity.
  - apply resetSimulation_sizes.
  - apply run_frame_sizes.
Qed.

(** X12.  The script never resizes a canvas: whatever happens on the
    page after loading, both canvases keep the pixel sizes the page gave
    them (so [groundY] and [graphOriginY], computed once, stay right). *)
Theorem canvas_sizes_never_change :
  forall (d : document) (es : list event),
    canvas_sizes (doc (events es (load d))) = canvas_sizes d.
Proof.
  intros d es.
  assert (Hload : canvas_sizes (doc (load d)) = canvas_sizes d).
  { unfold load, updateParameters. rewrite resetSimulation_sizes. reflexivity. }
  rewrite <- Hload. unfold events. generalize (load d).
  induction es as [| e es IH]; intros w.
  - reflexivity.
  - cbn [fold_left]. rewrite IH. apply handle_sizes.
Qed.

(** X13.  In every reachable state the history is empty or its length
    times 1.5 pixels fits in the plot width: the count test of
    [updatePhysics] keeps the buffer bounded (to 500 samples on a canvas
    800 pixels wide), and on a plot narrower than 1.5 pixels it keeps it
    empty. *)
Theorem history_length_is_bounded :
  forall w : world,
    reachable w ->
    graphHistory (g w) = [] \/
    INR (List.length (graphHistory (g w))) * (50 * 0.03)
    <= IZR (Z.of_N (width (graphCanvas (doc w)))) - 50.
Proof.
  induction 1 as [d _ | w e Hr IH].
  - left. reflexivity.
  - destruct e as [c v | now | | ts]; cbn [handle].
    + left. reflexivity.
    + unfold startSimulation. destruct (simulationActive (g w)); exact IH.
    + left. reflexivity.
    + destruct (reachable_inv w Hr) as [_ Hq].
      destruct (simulationActive (g w)) eqn:Hact.
      * destruct Hq as [h [_ Hp]].
        destruct (run_frame_active ts (S h) w Hact Hp) as (Hg & _ & Hw).
        rewrite Hg, Hw. cbn [with_animationFrameId graphHistory].
        rewrite updatePhysics_history. cbv zeta.
        cbn [with_lastTime graphHistory time initialAmplitude angularFrequency].
        destruct (_ > _)%js eqn:Htest.
        -- destruct (graphHistory (g w)) as [| s0 hist] eqn:Hh.
           ++ left. reflexivity.
           ++ right. destruct IH as [E | IH]; [discriminate E |].
              cbn [app tl]. rewrite length_app. cbn [List.length] in *.
              replace (List.length hist + 1)%nat
                with (S (List.length hist)) by lia.
              exact IH.
        -- right. apply jgt_fin_false in Htest.
           rewrite length_app. cbn [List.length].
           replace (List.length (graphHistory (g w)) + 1)%nat
             with (S (List.length (graphHistory (g w)))) by lia.
           unfold Rminus. exact Htest.
      * rewrite run_frame_idle by assumption. exact IH.
Qed.

Lemma history_length_is_bounded_witness :
  graphHistory (g stalled_run) = [] \/
  INR (List.length (graphHistory (g stalled_run))) * (50 * 0.03)
  <= IZR (Z.of_N (width (graphCanvas (doc stalled_run)))) - 50.
Proof.
  apply history_length_is_bounded.
  unfold stalled_run, events. cbn [fold_left].
  do 3 apply reach_step. apply reach_load. split; reflexivity.
Defined.

(** ** The graph renderer, continued *)

Lemma plot_history_ext (d1 d2 : document) (off : jsnum) (pts : list sample)
      (index : nat) :
  height (graphCanvas d1) = height (graphCanvas d2) ->
  plot_history d1 off pts index = plot_history d2 off pts index.
Proof.
  intros Hh. revert index. induction pts as [| pt rest IH]; intros index.
  - reflexivity.
  - cbn [plot_history]. unfold graphOriginY. rewrite Hh, IH. reflexivity.
Qed.

(** The calls depend on the page through the size of the graph canvas
    only, and on the variables through [time], [position],
    [initialAmplitude], [period] and [graphHistory] only. *)
Lemma drawGraph_calls_ext (d1 d2 : document) (x1 x2 : globals) :
  width (graphCanvas d1) = width (graphCanvas d2) ->
  height (graphCanvas d1) = height (graphCanvas d2) ->
  time x1 = time x2 ->
  position x1 = position x2 ->
  initialAmplitude x1 = initialAmplitude x2 ->
  period x1 = period x2 ->
  graphHistory x1 = graphHistory x2 ->
  drawGraph_calls d1 x1 = drawGraph_calls d2 x2.
Proof.
  intros Hw Hh Ht Hp HA HT Hhist. unfold drawGraph_calls. cbv zeta.
  rewrite (plot_history_ext d1 d2) by assumption.
  unfold period_mark_calls, periodStartX, currentGraphXOffset, graphOriginY.
  rewrite Hw, Hh, Ht, Hp, HA, HT, Hhist. reflexivity.
Qed.

Lemma drawGraph_run_blank (d : document) (x : globals) (c : canvas) :
  width c = width (graphCanvas d) -> height c = height (graphCanvas d) ->
  run (drawGraph_calls d x) c
  = run (drawGraph_calls d x)
        (blank_canvas (width c) (height c) (lineDash c)) /\
  lineDash (run (drawGraph_calls d x) c) = [].
Proof.
  intros Hw Hh. unfold drawGraph_calls. cbv zeta. rewrite <- Hw, <- Hh.
  rewrite !run_app, !run_plot_history, !(run_cons (clearRect _ _ _ _)).
  destruct c as [W H fs ss lw L f ta p s]. unfold blank_canvas.
  cbn [width height lineDash].
  rewrite !clearRect_full_mk.
  destruct (time x >= period x)%js.
  - unfold period_mark_calls. canvas_compute. split; reflexivity.
  - canvas_compute. split; reflexivity.
Qed.

Lemma drawGraph_twice (d : document) (x : globals) (c : canvas) :
  width c = width (graphCanvas d) -> height c = height (graphCanvas d) ->
  lineDash c = [] ->
  run (drawGraph_calls d x) (run (drawGraph_calls d x) c)
  = run (drawGraph_calls d x) c.
Proof.
  intros Hw Hh HL.
  destruct (run_dims (drawGraph_calls d x) c) as [Hw' Hh'].
  destruct (drawGraph_run_blank d x c Hw Hh) as [Hb Hd].
  destruct (drawGraph_run_blank d x (run (drawGraph_calls d x) c))
    as [Hb' _]; [congruence | congruence |].
  rewrite Hb', Hd, Hw', Hh', Hb, HL. reflexivity.
Qed.

Lemma graphCanvas_drawGraph (w : world) :
  graphCanvas (doc (drawGraph w))
  = run (drawGraph_calls (doc w) (g w)) (graphCanvas (doc w)).
Proof. reflexivity. Qed.

Lemma drawGraph_dash (w : world) :
  lineDash (graphCanvas (doc (drawGraph w))) = [].
Proof.
  rewrite graphCanvas_drawGraph. apply drawGraph_run_blank; reflexivity.
Qed.

Lemma animationLoop_graph_dash (ts : jsnum) (w : world) :
  lineDash (graphCanvas (doc w)) = [] ->
  lineDash (graphCanvas (doc (animationLoop ts w))) = [].
Proof.
  intros HL. destruct (animationLoop_doc_cases ts w) as [E | E]; rewrite E.
  - exact HL.
  - apply drawGraph_dash.
Qed.

Lemma run_frame_graph_dash (ts : jsnum) (w : world) :
  lineDash (graphCanvas (doc w)) = [] ->
  lineDash (graphCanvas (doc (run_frame ts w))) = [].
Proof.
  intros HL. unfold run_frame.
  assert (H0 : lineDash
                 (graphCanvas
                    (doc (with_raf (mkFrames [] (next_handle (raf w))) w)))
               = []) by exact HL.
  revert H0. generalize (with_raf (mkFrames [] (next_handle (raf w))) w).
  induction (pending (raf w)) as [| h hs IH]; intros u Hu.
  - exact Hu.
  - cbn [fold_left]. apply IH. apply animationLoop_graph_dash. exact Hu.
Qed.

Lemma reachable_graph_dash (w : world) :
  reachable w -> lineDash (graphCanvas (doc w)) = [].
Proof.
  induction 1 as [d _ | w e _ IH].
  - unfold load, updateParameters, resetSimulation. cbv zeta.
    apply drawGraph_dash.
  - destruct e as [c v | now | | ts]; cbn [handle].
    + unfold updateParameters, resetSimulation. cbv zeta. apply drawGraph_dash.
    + unfold startSimulation. destruct (simulationActive (g w)); exact IH.
    + unfold resetSimulation. cbv zeta. apply drawGraph_dash.
    + apply run_frame_graph_dash. exact IH.
Qed.

Lemma drawGraph_idempotent (w : world) :
  lineDash (graphCanvas (doc w)) = [] ->
  drawGraph (drawGraph w) = drawGraph w.
Proof.
  destruct w as [x [sc gc mi ms ki ks ai asp] r].
  cbn [doc graphCanvas]. intros HL.
  unfold drawGraph.
  cbv [with_doc with_graphCanvas g doc raf simCanvas graphCanvas massInput
       massValueSpan springConstantInput springConstantValueSpan
       initialAmplitudeInput initialAmplitudeValueSpan].
  set (d := mkDocument sc gc mi ms ki ks ai asp).
  set (c1 := run (drawGraph_calls d x) gc).
  destruct (run_dims (drawGraph_calls d x) gc) as [Hw Hh].
  fold c1 in Hw, Hh.
  rewrite (drawGraph_calls_ext
             (mkDocument sc c1 mi ms ki ks ai asp) d x x);
    try reflexivity; try assumption.
  unfold c1. rewrite drawGraph_twice; try reflexivity. exact HL.
Qed.

(** X14.  [drawGraph] changes nothing but the graph canvas.  What ends
    up on it is determined by [time], [position], [initialAmplitude],
    [period] and [graphHistory] (given the canvas size and the dash
    pattern it starts with), and in every reachable state drawing a
    second time leaves the whole state as the first drawing left it. *)
Theorem drawGraph_pure :
  forall w : world,
    (g (drawGraph w) = g w /\
     raf (drawGraph w) = raf w /\
     doc (drawGraph w)
     = with_graphCanvas (graphCanvas (doc (drawGraph w))) (doc w)) /\
    (forall w2 : world,
        time (g w2) = time (g w) ->
        position (g w2) = position (g w) ->
        initialAmplitude (g w2) = initialAmplitude (g w) ->
        period (g w2) = period (g w) ->
        graphHistory (g w2) = graphHistory (g w) ->
        width (graphCanvas (doc w2)) = width (graphCanvas (doc w)) ->
        height (graphCanvas (doc w2)) = height (graphCanvas (doc w)) ->
        lineDash (graphCanvas (doc w2)) = lineDash (graphCanvas (doc w)) ->
        graphCanvas (doc (drawGraph w2)) = graphCanvas (doc (drawGraph w))) /\
    (reachable w -> drawGraph (drawGraph w) = drawGraph w).
Proof.
  intros w. split; [| split].
  - split; [reflexivity |]. split; reflexivity.
  - intros w2 Ht Hp HA HT Hhist Hw Hh HL. rewrite !graphCanvas_drawGraph.
    destruct (drawGraph_run_blank (doc w2) (g w2) (graphCanvas (doc w2)))
      as [E2 _]; [reflexivity | reflexivity |].
    destruct (drawGraph_run_blank (doc w) (g w) (graphCanvas (doc w)))
      as [E1 _]; [reflexivity | reflexivity |].
    rewrite E2, E1.
    rewrite (drawGraph_calls_ext (doc w2) (doc w) (g w2) (g w))
      by assumption.
    rewrite Hw, Hh, HL. reflexivity.
  - intros Hr. apply drawGraph_idempotent. apply reachable_graph_dash.
    exact Hr.
Qed.

Lemma drawGraph_pure_witness :
  graphCanvas (doc (drawGraph example_running))
  = graphCanvas (doc (drawGraph example_world)) /\
  drawGraph (drawGraph example_running) = drawGraph example_running.
Proof.
  split.
  - apply (proj1 (proj2 (drawGraph_pure example_world))); reflexivity.
  - apply (proj2 (proj2 (drawGraph_pure example_running))).
    exact example_running_reachable.
Defined.

(** ** The two renderers together *)

(** X15.  The two renderers do not interfere: drawing the scene and then
    the graph gives the same state as drawing the graph and then the
    scene. *)
Theorem renderers_commute :
  forall w : world,
    drawGraph (drawSimulation w) = drawSimulation (drawGraph w).
Proof.
  intros [x [sc gc mi ms ki ks ai asp] r].
  unfold drawGraph, drawSimulation.
  cbv [with_doc with_graphCanvas with_simCanvas g doc raf simCanvas
       graphCanvas massInput massValueSpan springConstantInput
       springConstantValueSpan initialAmplitudeInput
       initialAmplitudeValueSpan].
  set (d := mkDocument sc gc mi ms ki ks ai asp).
  rewrite (drawGraph_calls_ext
             (mkDocument (run (drawSimulation_calls d x) sc) gc
                         mi ms ki ks ai asp) d x x) by reflexivity.
  rewrite (drawSimulation_calls_ext
             (mkDocument sc (run (drawGraph_calls d x) gc)
                         mi ms ki ks ai asp) d x x) by reflexivity.
  reflexivity.
Qed.

Lemma draws_commute (w : world) :
  drawSimulation (drawGraph w) = drawGraph (drawSimulation w).
Proof.
  destruct w as [x [sc gc mi ms ki ks ai asp] r].
  unfold drawGraph, drawSimulation.
  cbv [with_doc with_graphCanvas with_simCanvas g doc raf simCanvas
       graphCanvas massInput massValueSpan springConstantInput
       springConstantValueSpan initialAmplitudeInput
       initialAmplitudeValueSpan].
  set (d := mkDocument sc gc mi ms ki ks ai asp).
  rewrite (drawGraph_calls_ext
             (mkDocument (run (drawSimulation_calls d x) sc) gc
                         mi ms ki ks ai asp) d x x) by reflexivity.
  rewrite (drawSimulation_calls_ext
             (mkDocument sc (run (drawGraph_calls d x) gc)
                         mi ms ki ks ai asp) d x x) by reflexivity.
  reflexivity.
Qed.

Lemma rest_state_twice (x : globals) : rest_state (rest_state x) = rest_state x.
Proof. destruct x. reflexivity. Qed.

Lemma resetSimulation_unfold (w : world) :
  resetSimulation w
  = drawGraph (drawSimulation
                 (mkWorld (rest_state (g w)) (doc w) (raf (resetSimulation w)))).
Proof. reflexivity. Qed.

Lemma redraw_twice (u : world) :
  lineDash (simCanvas (doc u)) = [] ->
  lineDash (graphCanvas (doc u)) = [] ->
  drawGraph (drawSimulation (drawGraph (drawSimulation u)))
  = drawGraph (drawSimulation u).
Proof.
  intros Hs Hg.
  rewrite (draws_commute (drawSimulation u)).
  rewrite (drawSimulation_idempotent u Hs).
  apply drawGraph_idempotent.
  exact Hg.
Qed.

(** X16.  A second click on reset changes nothing: in every reachable
    state, resetting twice gives the state the first reset gave,
    canvases and frame queue included. *)
Theorem resetSimulation_twice :
  forall w : world,
    reachable w ->
    resetSimulation (resetSimulation w) = resetSimulation w.
Proof.
  intros w Hr.
  destruct (resetSimulation_queue w (reachable_inv w Hr)) as [Hp _].
  assert (Hf : raf (resetSimulation (resetSimulation w))
               = raf (resetSimulation w)).
  { rewrite (resetSimulation_raf (resetSimulation w)).
    destruct (animationFrameId (g (resetSimulation w))) as [id |];
      [| reflexivity].
    destruct (truthy_handle (Some id)); [| reflexivity].
    destruct (raf (resetSimulation w)) as [p n]. cbn [pending] in Hp.
    subst p. reflexivity. }
  rewrite (resetSimulation_unfold (resetSimulation w)), Hf.
  rewrite resetSimulation_globals, rest_state_twice.
  set (u := mkWorld (rest_state (g w)) (doc w) (raf (resetSimulation w))).
  assert (Eu : resetSimulation w = drawGraph (drawSimulation u))
    by apply resetSimulation_unfold.
  assert (Ew : mkWorld (rest_state (g w)) (doc (resetSimulation w))
                       (raf (resetSimulation w))
               = drawGraph (drawSimulation u)).
  { rewrite Eu at 1. apply world_ext; reflexivity. }
  rewrite Ew, Eu. apply redraw_twice.
  - exact (reachable_dash w Hr).
  - exact (reachable_graph_dash w Hr).
Qed.

Lemma resetSimulation_twice_witness :
  resetSimulation (resetSimulation example_running)
  = resetSimulation example_running.
Proof.
  apply resetSimulation_twice. exact example_running_reachable.
Defined.

(** ** Where things are drawn *)

Lemma nth_error_plot_path (d : document) (off : jsnum) (pts : list sample) :
  forall (k i : nat) (s : sample),
    nth_error pts i = Some s ->
    nth_error (plot_path d off pts k) i
    = Some ((if Nat.eqb (k + i) 0 then MoveTo else LineTo)
              (graphOriginX + s_time s * graphScaleX - off)%js
              (graphOriginY d - s_position s * graphScaleY)%js).
Proof.
  induction pts as [| pt rest IH]; intros k i s Hs.
  - destruct i; discriminate Hs.
  - destruct i as [| i].
    + injection Hs as ->. cbn [plot_path nth_error].
      rewrite Nat.add_0_r. destruct (Nat.eqb k 0); reflexivity.
    + cbn [plot_path nth_error]. cbn [nth_error] in Hs.
      rewrite (IH (S k) i s Hs).
      replace (S k + i)%nat with (k + S i)%nat by lia. reflexivity.
Qed.

Lemma length_plot_path (d : document) (off : jsnum) (pts : list sample)
      (k : nat) :
  List.length (plot_path d off pts k) = List.length pts.
Proof.
  revert k. induction pts as [| pt rest IH]; intros k.
  - reflexivity.
  - cbn [plot_path List.length]. rewrite IH. reflexivity.
Qed.

(** The curve and the marker [drawGraph] paints. *)
Lemma drawGraph_run_curve (d : document) (x : globals) (c : canvas) :
  width c = width (graphCanvas d) -> height c = height (graphCanvas d) ->
  In (StrokedPath "#e74c3c" (Fin 2) []
        (plot_path d (currentGraphXOffset d x) (graphHistory x) 0))
     (surface (run (drawGraph_calls d x) c)) /\
  In (FilledPath "blue"
        [Arc (graphOriginX + time x * graphScaleX - currentGraphXOffset d x)%js
             (graphOriginY d - position x * graphScaleY)%js
             (Fin 4) (Fin 0) (Math_PI * Fin 2)%js])
     (surface (run (drawGraph_calls d x) c)).
Proof.
  intros Hw Hh. unfold drawGraph_calls. cbv zeta. rewrite <- Hw, <- Hh.
  rewrite !run_app, run_plot_history, (run_cons (clearRect _ _ _ _)).
  destruct c as [W H fs ss lw L f ta p s]. cbn [width height].
  rewrite clearRect_full_mk.
  destruct (time x >= period x)%js.
  - unfold period_mark_calls. canvas_compute. cbn [In]. split; in_list.
  - canvas_compute. cbn [In]. split; in_list.
Qed.

Lemma offset_of_newest (d : document) (x : globals) (older : list sample)
      (newest : sample) :
  graphHistory x = older ++ [newest] ->
  currentGraphXOffset d x
  = (s_time newest * graphScaleX
     - (of_N (width (graphCanvas d)) - graphOriginX))%js.
Proof.
  intros Hh. unfold currentGraphXOffset.
  rewrite Hh, rev_app_distr. reflexivity.
Qed.

(** X17.  The marker sits on the end of the curve: when the newest
    sample of the history is the current [time] and [position] (as it is
    after every tick), [drawGraph] strokes the curve with one vertex per
    sample and fills the blue marker centred on the last of them, at the
    coordinates the script computes for both with the same scroll
    offset. *)
Theorem marker_sits_on_newest_sample :
  forall (w : world) (older : list sample),
    graphHistory (g w)
    = older ++ [mkSample (time (g w)) (position (g w))] ->
    let painted := surface (graphCanvas (doc (drawGraph w))) in
    let cx :=
      (graphOriginX + time (g w) * graphScaleX
       - (time (g w) * graphScaleX
          - (of_N (width (graphCanvas (doc w))) - graphOriginX)))%js in
    let cy := (graphOriginY (doc w) - position (g w) * graphScaleY)%js in
    exists path : list pathseg,
      In (StrokedPath "#e74c3c" (Fin 2) [] path) painted /\
      List.length path = S (List.length older) /\
      nth_error path (List.length older)
      = Some ((if Nat.eqb (List.length older) 0 then MoveTo else LineTo)
                cx cy) /\
      In (FilledPath "blue" [Arc cx cy (Fin 4) (Fin 0) (Math_PI * Fin 2)%js])
         painted.
Proof.
  intros w older Hh painted cx cy. subst painted cx cy.
  destruct (drawGraph_run_curve (doc w) (g w) (graphCanvas (doc w))
              eq_refl eq_refl) as [Hcurve Hmark].
  assert (Hoff := offset_of_newest (doc w) (g w) older _ Hh).
  cbn [s_time] in Hoff.
  exists (plot_path (doc w) (currentGraphXOffset (doc w) (g w))
                    (graphHistory (g w)) 0).
  split; [exact Hcurve |]. split; [| split].
  - rewrite length_plot_path, Hh, length_app. cbn [List.length]. lia.
  - rewrite (nth_error_plot_path _ _ _ 0 (List.length older)
               (mkSample (time (g w)) (position (g w)))).
    + cbn [Nat.add s_time s_position]. rewrite Hoff. reflexivity.
    + rewrite Hh, nth_error_app2 by lia. rewrite Nat.sub_diag. reflexivity.
  - rewrite Hoff in Hmark. exact Hmark.
Qed.

Lemma marker_sits_on_newest_sample_witness :
  exists path : list pathseg,
    In (StrokedPath "#e74c3c" (Fin 2) [] path)
       (surface (graphCanvas (doc (drawGraph traced_world)))) /\
    List.length path = 2%nat /\
    nth_error path 1
    = Some (LineTo
              (graphOriginX + Fin 9 * graphScaleX
               - (Fin 9 * graphScaleX
                  - (of_N (width (graphCanvas (doc traced_world)))
                     - graphOriginX)))%js
              (graphOriginY (doc traced_world) - Fin 0.5 * graphScaleY)%js) /\
    In (FilledPath "blue"
          [Arc (graphOriginX + Fin 9 * graphScaleX
                - (Fin 9 * graphScaleX
                   - (of_N (width (graphCanvas (doc traced_world)))
                      - graphOriginX)))%js
               (graphOriginY (doc traced_world) - Fin 0.5 * graphScaleY)%js
               (Fin 4) (Fin 0) (Math_PI * Fin 2)%js])
       (surface (graphCanvas (doc (drawGraph traced_world)))).
Proof.
  apply (marker_sits_on_newest_sample traced_world [mkSample (Fin 8) (Fin 1)]).
  reflexivity.
Defined.

(** ** The scene, continued *)

(** X18.  The spring is one zig-zag from the wall: [drawSimulation]
    strokes it as a single path of 17 vertices, a move to the wall at
    [x = wallX] at mid-height of the block followed by 16 line vertices,
    the one numbered [i] (from 0 to 15, both ends included) at
    [x = wallX + i * coilLength] and 15 pixels to one side of mid-height
    for even [i], to the other for odd [i], with [coilLength] a
    fifteenth of the way from the wall to the block's left face, all in
    the script's own arithmetic. *)
Theorem spring_is_a_zigzag_from_the_wall :
  forall w : world,
    let painted := surface (simCanvas (doc (drawSimulation w))) in
    let mid := (groundY (doc w) - blockHeight / Fin 2)%js in
    let coilLength :=
      ((equilibriumX + position (g w) * simScale - blockWidth / Fin 2 - wallX)
       / of_nat 15)%js in
    exists path : list pathseg,
      In (StrokedPath "#3498db" (Fin 3) (lineDash (simCanvas (doc w))) path)
         painted /\
      List.length path = 17%nat /\
      nth_error path 0 = Some (MoveTo wallX mid) /\
      (forall i : nat,
          (i < 16)%nat ->
          nth_error path (S i)
          = Some (LineTo (wallX + of_nat i * coilLength)%js
                         (mid + (if Nat.even i then Fin 15 else - Fin 15))%js)).
Proof.
  intros w painted mid coilLength. subst painted mid coilLength.
  rewrite simCanvas_drawSimulation.
  unfold drawSimulation_calls. cbv zeta.
  rewrite <- !app_comm_cons. cbn [app].
  rewrite (run_cons (clearRect _ _ _ _)).
  destruct (simCanvas (doc w)) as [W H fs ss lw L f ta pth s] eqn:Hc.
  cbn [width height lineDash].
  rewrite clearRect_full_mk. canvas_compute.
  eexists. split; [cbn [In]; in_list |].
  split; [reflexivity |]. split; [reflexivity |].
  intros i Hi.
  do 16 (destruct i as [| i]; [reflexivity |]).
  lia.
Qed.

Lemma mark_x (A : R) :
  (equilibriumX + Fin A * simScale)%js = Fin (250 + 100 * A) /\
  (equilibriumX - Fin A * simScale)%js = Fin (250 - 100 * A).
Proof.
  unfold equilibriumX, wallX, simScale. cbn [jadd jsub jneg jmul].
  split; f_equal; ring.
Qed.

(** X19.  The block stays between the amplitude marks: [drawSimulation]
    strokes the two marks at [equilibriumX + initialAmplitude * simScale]
    and [equilibriumX - initialAmplitude * simScale] (dashed, as the
    equilibrium line before them: the dash pattern is still set) and
    fills the block around [equilibriumX + position * simScale]; whenever
    [|position| <= initialAmplitude] that centre compares as lying
    between the two marks, in the script's own comparison. *)
Theorem block_between_amplitude_marks :
  forall (w : world) (p A : R),
    position (g w) = Fin p ->
    initialAmplitude (g w) = Fin A ->
    Rabs p <= A ->
    let painted := surface (simCanvas (doc (drawSimulation w))) in
    let top := (groundY (doc w) - blockHeight - Fin 20)%js in
    let bottom := (groundY (doc w) + Fin 20)%js in
    let centre := (equilibriumX + position (g w) * simScale)%js in
    let right := (equilibriumX + initialAmplitude (g w) * simScale)%js in
    let left := (equilibriumX - initialAmplitude (g w) * simScale)%js in
    In (StrokedPath "rgba(0, 128, 0, 0.7)" (Fin 2) [Fin 5; Fin 5]
          [MoveTo right top; LineTo right bottom]) painted /\
    In (StrokedPath "rgba(0, 128, 0, 0.7)" (Fin 2) [Fin 5; Fin 5]
          [MoveTo left top; LineTo left bottom]) painted /\
    In (FilledRect "#e74c3c" (centre - blockWidth / Fin 2)%js
          (groundY (doc w) - blockHeight)%js blockWidth blockHeight)
       painted /\
    (right >= centre)%js = true /\
    (centre >= left)%js = true.
Proof.
  intros w p A Hp HA Hband painted top bottom centre right left.
  subst painted top bottom centre right left.
  assert (Hb : - A <= p <= A).
  { unfold Rabs in Hband. destruct (Rcase_abs p); lra. }
  split; [| split; [| split]].
  - rewrite simCanvas_drawSimulation.
    unfold drawSimulation_calls. cbv zeta.
    rewrite <- !app_comm_cons. cbn [app].
    rewrite (run_cons (clearRect _ _ _ _)).
    destruct (simCanvas (doc w)) as [W H fs ss lw L f ta pth s] eqn:Hc.
    cbn [width height lineDash].
    rewrite clearRect_full_mk. canvas_compute. cbn [In]. in_list.
  - rewrite simCanvas_drawSimulation.
    unfold drawSimulation_calls. cbv zeta.
    rewrite <- !app_comm_cons. cbn [app].
    rewrite (run_cons (clearRect _ _ _ _)).
    destruct (simCanvas (doc w)) as [W H fs ss lw L f ta pth s] eqn:Hc.
    cbn [width height lineDash].
    rewrite clearRect_full_mk. canvas_compute. cbn [In]. in_list.
  - rewrite simCanvas_drawSimulation.
    apply drawSimulation_block; reflexivity.
  - rewrite Hp, HA.
    destruct (mark_x A) as [Hr Hl]. destruct (mark_x p) as [Hc _].
    rewrite Hr, Hl, Hc. split; apply jge_fin; lra.
Qed.

Lemma block_between_amplitude_marks_witness :
  (equilibriumX + initialAmplitude (g traced_world) * simScale
   >= equilibriumX + position (g traced_world) * simScale)%js = true /\
  (equilibriumX + position (g traced_world) * simScale
   >= equilibriumX - initialAmplitude (g traced_world) * simScale)%js = true.
Proof.
  apply (block_between_amplitude_marks traced_world 0.5 1).
  - reflexivity.
  - reflexivity.
  - unfold Rabs. destruct (Rcase_abs 0.5); lra.
Defined.

(** X20.  The rest state is the motion at time 0: whenever the product
    [initialAmplitude * angularFrequency] the script computes is a
    finite number, a physics step of length 0 taken from the rest state
    computes the rest position, the rest velocity and the time 0 again,
    so a first frame rendered at the instant of the reset makes no
    jump. *)
Theorem rest_state_is_motion_at_zero :
  forall (d : document) (x : globals) (B : R),
    (initialAmplitude x * angularFrequency x)%js = Fin B ->
    position (updatePhysics d (Fin 0) (rest_state x))
    = position (rest_state x) /\
    velocity (updatePhysics d (Fin 0) (rest_state x))
    = velocity (rest_state x) /\
    time (updatePhysics d (Fin 0) (rest_state x)) = time (rest_state x).
Proof.
  intros d x B HB.
  destruct (jmul_fin_inv _ _ _ HB) as (A & om & HA & Hom & _).
  cbn [updatePhysics rest_state position velocity time initialAmplitude
       angularFrequency].
  rewrite HA, Hom. cbn [jadd jmul jneg jcos jsin].
  replace (om * (0 + 0)) with 0 by ring.
  rewrite cos_0, sin_0.
  split; [f_equal; ring |]. split; f_equal; ring.
Qed.

Lemma rest_state_is_motion_at_zero_witness :
  position (updatePhysics example_document (Fin 0) (rest_state example_globals))
  = position (rest_state example_globals) /\
  velocity (updatePhysics example_document (Fin 0) (rest_state example_globals))
  = velocity (rest_state example_globals) /\
  time (updatePhysics example_document (Fin 0) (rest_state example_globals))
  = time (rest_state example_globals).
Proof.
  apply (rest_state_is_motion_at_zero example_document example_globals
           (1 * sqrt (10 / 1))).
  change ((Fin 1 * jsqrt (Fin 10 / Fin 1))%js = Fin (1 * sqrt (10 / 1))).
  rewrite omega_fin by lra. reflexivity.
Defined.

(** ** Moving a control *)

(** X21.  Moving a control restarts the simulation with just that
    parameter changed: in every reachable state, after the [input] event
    of a control the parameter it stands for has the new value and the
    other two are as before, the simulation is idle and at rest with an
    empty history, no callback waits, and frames change nothing until
    start is clicked. *)
Theorem moving_a_control_restarts :
  forall (w : world) (c : control) (v : jsnum),
    reachable w ->
    let w' := handle (Input c v) w in
    (match c with
     | MassControl =>
         mass (g w') = v /\
         springConstant (g w') = springConstant (g w) /\
         initialAmplitude (g w') = initialAmplitude (g w)
     | SpringControl =>
         mass (g w') = mass (g w) /\
         springConstant (g w') = v /\
         initialAmplitude (g w') = initialAmplitude (g w)
     | AmplitudeControl =>
         mass (g w') = mass (g w) /\
         springConstant (g w') = springConstant (g w) /\
         initialAmplitude (g w') = v
     end) /\
    (simulationActive (g w') = false /\
     time (g w') = Fin 0 /\
     position (g w') = initialAmplitude (g w') /\
     velocity (g w') = Fin 0 /\
     graphHistory (g w') = []) /\
    pending (raf w') = [] /\
    (forall stamps : list jsnum, events (map Frame stamps) w' = w').
Proof.
  intros w c v Hr w'.
  assert (Hmir := reachable_mirror w Hr). unfold controls_of in Hmir.
  injection Hmir as Hm Hk Ha _ _ _.
  assert (Hr' : reachable w') by (apply reach_step; exact Hr).
  assert (Hidle : simulationActive (g w') = false) by reflexivity.
  destruct (reachable_inv w' Hr') as [_ Hq]. rewrite Hidle in Hq.
  split; [| split; [| split]].
  - destruct c; subst w'.
    + split; [reflexivity |]. split.
      * change (springConstantInput (doc w) = springConstant (g w)). exact Hk.
      * change (initialAmplitudeInput (doc w) = initialAmplitude (g w)).
        exact Ha.
    + split; [| split; [reflexivity |]].
      * change (massInput (doc w) = mass (g w)). exact Hm.
      * change (initialAmplitudeInput (doc w) = initialAmplitude (g w)).
        exact Ha.
    + split; [| split; [| reflexivity]].
      * change (massInput (doc w) = mass (g w)). exact Hm.
      * change (springConstantInput (doc w) = springConstant (g w)). exact Hk.
  - repeat split.
  - exact Hq.
  - intros stamps. induction stamps as [| ts stamps IH].
    + reflexivity.
    + cbn [map]. unfold events in *. cbn [fold_left handle].
      rewrite run_frame_idle by assumption. exact IH.
Qed.

Lemma moving_a_control_restarts_witness :
  mass (g (handle (Input MassControl (Fin 2)) example_running)) = Fin 2 /\
  springConstant (g (handle (Input MassControl (Fin 2)) example_running))
  = springConstant (g example_running) /\
  initialAmplitude (g (handle (Input MassControl (Fin 2)) example_running))
  = initialAmplitude (g example_running).
Proof.
  apply (moving_a_control_restarts example_running MassControl (Fin 2)
           example_running_reachable).
Defined.
